(** * Streamlit-Portfolio-Tracker: the numeric core, embedded and verified

    The development follows the four source files:
      - [My_portfolio.py]            : the [stocks] table, [update_stock],
                                       the valuation columns of [main];
      - [pages/Dividends.py]         : [get_dividend_info] and the two
                                       aggregates of [main];
      - [pages/Risk.py]              : back-fill, returns, covariance,
                                       portfolio variance, risk ranking;
      - [pages/2_Portfolio_Analysis.py] : the reconstructed portfolio value
                                       and the portfolio Sharpe ratio.

    Numbers.  The program computes on float64.  A float64 is modelled by
    [fl]: a rational, or one of the three special values NaN, +inf, -inf.
    Arithmetic on finite values is exact (no rounding, no overflow, no
    signed zero); the special values follow IEEE 754, which is what decides
    how pandas and numpy treat missing cells and divisions by zero.  The
    square root has no exact rational model: it is a parameter [sqrtQ] of
    the definitions that need it. *)

From Stdlib Require Import ZArith QArith Qround List String Bool Lia Arith.
From Stdlib Require Import Permutation Sorted Setoid Morphisms Lqa.
Import ListNotations.

Local Open Scope Q_scope.

(* ================================================================== *)
(** * Part I: definitions *)
(* ================================================================== *)

(** ** float64 values *)

Inductive fl : Type :=
| Fin (q : Q)
| PInf
| NInf
| NaN.

Definition Qzerob (q : Q) : bool := (Qnum q =? 0)%Z.
Definition Qposb (q : Q) : bool := (0 <? Qnum q)%Z.
Definition Qltb (a b : Q) : bool := negb (Qle_bool b a).

Definition is_nan (x : fl) : bool :=
  match x with NaN => true | _ => false end.

Definition is_finite (x : fl) : bool :=
  match x with Fin _ => true | _ => false end.

(** Two floats hold the same value. *)
Definition feq (x y : fl) : Prop :=
  match x, y with
  | Fin a, Fin b => a == b
  | PInf, PInf | NInf, NInf | NaN, NaN => True
  | _, _ => False
  end.

Definition feqb (x y : fl) : bool :=
  match x, y with
  | Fin a, Fin b => Qeq_bool a b
  | PInf, PInf | NInf, NInf | NaN, NaN => true
  | _, _ => false
  end.

Definition fopp (x : fl) : fl :=
  match x with
  | Fin a => Fin (- a)
  | PInf => NInf
  | NInf => PInf
  | NaN => NaN
  end.

Definition fadd (x y : fl) : fl :=
  match x, y with
  | NaN, _ | _, NaN => NaN
  | PInf, NInf | NInf, PInf => NaN
  | PInf, _ | _, PInf => PInf
  | NInf, _ | _, NInf => NInf
  | Fin a, Fin b => Fin (a + b)
  end.

Definition fsub (x y : fl) : fl := fadd x (fopp y).

(** The infinity of the sign of [q * (+inf)]; NaN when [q] is zero. *)
Definition inf_times (q : Q) : fl :=
  if Qzerob q then NaN else if Qposb q then PInf else NInf.

Definition fmul (x y : fl) : fl :=
  match x, y with
  | NaN, _ | _, NaN => NaN
  | Fin a, Fin b => Fin (a * b)
  | PInf, Fin q | Fin q, PInf => inf_times q
  | NInf, Fin q | Fin q, NInf => fopp (inf_times q)
  | PInf, PInf | NInf, NInf => PInf
  | PInf, NInf | NInf, PInf => NInf
  end.

(** numpy division: [x / 0] is an infinity, [0 / 0] is NaN, and nothing is
    raised. *)
Definition fdiv (x y : fl) : fl :=
  match x, y with
  | NaN, _ | _, NaN => NaN
  | Fin a, Fin b =>
      if Qzerob b then inf_times a else Fin (a / b)
  | Fin _, (PInf | NInf) => Fin 0
  | PInf, Fin b => if Qltb b 0 then NInf else PInf
  | NInf, Fin b => if Qltb b 0 then PInf else NInf
  | (PInf | NInf), (PInf | NInf) => NaN
  end.

(** The order of the non-NaN floats, as a sort compares them. *)
Definition fltb (x y : fl) : bool :=
  match x, y with
  | NaN, _ | _, NaN => false
  | NInf, NInf => false
  | NInf, _ => true
  | _, NInf => false
  | PInf, _ => false
  | Fin _, PInf => true
  | Fin a, Fin b => Qltb a b
  end.

Definition fleb (x y : fl) : bool :=
  match x, y with
  | NaN, _ | _, NaN => false
  | _, _ => negb (fltb y x)
  end.

(** Round half to even, the rounding of [round] and of the [.2f] format. *)
Definition round_half_even (q : Q) : Z :=
  let f := Qfloor q in
  let r := q - inject_Z f in
  if Qltb r (1 # 2) then f
  else if Qltb (1 # 2) r then (f + 1)%Z
  else if Z.even f then f else (f + 1)%Z.

Definition round_to (digits : positive) (q : Q) : Q :=
  let scale := (10 ^ Zpos digits)%Z in
  Qmake (round_half_even (q * inject_Z scale)) (Z.to_pos scale).

Definition fround (digits : positive) (x : fl) : fl :=
  match x with
  | Fin q => Fin (round_to digits q)
  | _ => x
  end.

Definition Qsum (l : list Q) : Q := fold_right Qplus 0 l.

(** ** pandas: operations on one column (a [Series] of float64) *)

Definition notna (x : fl) : bool := negb (is_nan x).

(** [sum()], [skipna=True]: NaN cells are skipped, the empty sum is 0. *)
Definition nansum (s : list fl) : fl :=
  fold_left fadd (filter notna s) (Fin 0).

(** The number of cells that are not NaN. *)
Definition count (s : list fl) : nat := List.length (filter notna s).

Definition of_nat (n : nat) : fl := Fin (inject_Z (Z.of_nat n)).

(** [mean()]: NaN for a column without a value. *)
Definition nanmean (s : list fl) : fl :=
  if (count s =? 0)%nat then NaN else fdiv (nansum s) (of_nat (count s)).

(** [fillna(0)]. *)
Definition fillna0 (s : list fl) : list fl :=
  map (fun x => if is_nan x then Fin 0 else x) s.

(** [bfill()]: a missing cell takes the next value below it, if any. *)
Fixpoint bfill (s : list fl) : list fl :=
  match s with
  | [] => []
  | x :: rest =>
      let filled := bfill rest in
      (if is_nan x then hd NaN filled else x) :: filled
  end.

(** [ffill()]: a missing cell takes the last value above it, if any. *)
Fixpoint ffill_from (last : fl) (s : list fl) : list fl :=
  match s with
  | [] => []
  | x :: rest =>
      let v := if is_nan x then last else x in
      v :: ffill_from v rest
  end.

Definition ffill (s : list fl) : list fl := ffill_from NaN s.

(** [shift(1)]: every cell moves one row down, the first becomes NaN. *)
Definition shift (s : list fl) : list fl :=
  match s with
  | [] => []
  | _ :: _ => NaN :: removelast s
  end.

(** [pct_change(1)]: [data / data.shift(1) - 1].  Up to pandas 2 the column
    is forward-filled first (the default [fill_method='pad']); from pandas 3
    it is not.  [pad] selects between the two. *)
Definition pct_change (pad : bool) (s : list fl) : list fl :=
  let data := if pad then ffill s else s in
  map (fun p => fsub (fdiv (fst p) (snd p)) (Fin 1))
      (combine data (shift data)).

(** The first value of a column that is not NaN, NaN if there is none. *)
Fixpoint first_valid (s : list fl) : fl :=
  match s with
  | [] => NaN
  | x :: rest => if is_nan x then first_valid rest else x
  end.

Section Sqrt.

(** The square root on the non-negative rationals. *)
Variable sqrtQ : Q -> Q.

Definition fsqrt (x : fl) : fl :=
  match x with
  | Fin q => if Qltb q 0 then NaN else Fin (sqrtQ q)
  | PInf => PInf
  | NInf | NaN => NaN
  end.

(** [var(ddof=1)]: NaN unless two cells at least hold a value. *)
Definition nanvar (s : list fl) : fl :=
  let vals := filter notna s in
  let n := List.length vals in
  if (n <=? 1)%nat then NaN
  else
    let avg := fdiv (nansum vals) (of_nat n) in
    let sqr := map (fun x => fmul (fsub avg x) (fsub avg x)) vals in
    fdiv (fold_left fadd sqr (Fin 0)) (of_nat (n - 1)).

(** [std()], that is [std(ddof=1)]. *)
Definition nanstd (s : list fl) : fl := fsqrt (nanvar s).

End Sqrt.

(** ** My_portfolio.py: the [stocks] table *)

Module Store.

(** One row of [stocks], with the [account] column that [save_stock] and
    [update_stock] write. *)
Record stock : Type := mkStock {
  id : Z;
  ticker : string;
  account : string;
  shares : Q;
  cost_basis : Q
}.

(** The table: its rows in rowid order. *)
Definition table : Type := list stock.

Definition sql_update (id0 : Z) (account0 : string) (shares0 cost_basis0 : Q)
  (t : table) : table :=
  map (fun r =>
         if (id r =? id0)%Z
         then mkStock (id r) (ticker r) account0 shares0 cost_basis0
         else r) t.

Definition sql_delete (id0 : Z) (t : table) : table :=
  filter (fun r => negb (id r =? id0)%Z) t.

(** What the statement of [update_stock] does to the rows when it executes:
    the [UPDATE] for shares > 0, the [DELETE] otherwise.  Whether SQLite
    executes it at all (the [UPDATE] names the [account] column) is decided
    on the file, in [Sqlite.update_stock]. *)
Definition update_stock (id0 : Z) (account0 : string)
  (shares0 cost_basis0 : Q) (t : table) : table :=
  if Qltb 0 shares0
  then sql_update id0 account0 shares0 cost_basis0 t
  else sql_delete id0 t.

End Store.

(** ** My_portfolio.py: the valuation columns of [main] *)

Module Valuation.

(** What [yf.Ticker(t).history(period="1d")] gives: an exception, or the
    [Close] column. *)
Inductive history_reply : Type :=
| Raises
| Closes (close : list fl).

Definition provider : Type := string -> history_reply.

(** [get_current_price]: [Close.iloc[0]], and [None] on [IndexError] or any
    other exception. *)
Definition get_current_price (yf : provider) (t : string) : option fl :=
  match yf t with
  | Raises => None
  | Closes [] => None
  | Closes (price :: _) => Some price
  end.

(** A cell of the float column ['Current Price']: [None] is stored as NaN. *)
Definition current_price (yf : provider) (r : Store.stock) : fl :=
  match get_current_price yf (Store.ticker r) with
  | Some price => price
  | None => NaN
  end.

(** ['Total Value'] = ['shares'] * ['Current Price']. *)
Definition total_value (yf : provider) (r : Store.stock) : fl :=
  fmul (Fin (Store.shares r)) (current_price yf r).

Definition total_portfolio_value (yf : provider) (portfolio : Store.table)
  : fl :=
  nansum (map (total_value yf) portfolio).

(** ['Portfolio %'], one cell per row. *)
Definition portfolio_pct (yf : provider) (portfolio : Store.table)
  : list fl :=
  map (fun r => fmul (fdiv (total_value yf r)
                           (total_portfolio_value yf portfolio))
                     (Fin 100))
      portfolio.

(** The sum the specification describes: shares times price over the
    positions that have a price. *)
Definition priced (yf : provider) (r : Store.stock) : option Q :=
  match current_price yf r with
  | Fin p => Some (Store.shares r * p)
  | _ => None
  end.

Fixpoint defined_values (yf : provider) (portfolio : Store.table) : list Q :=
  match portfolio with
  | [] => []
  | r :: rest =>
      match priced yf r with
      | Some v => v :: defined_values yf rest
      | None => defined_values yf rest
      end
  end.

End Valuation.

(** ** pages/Dividends.py *)

Module Dividends.

(** The fields of [stock.info] the page reads; [None] stands for a key that
    is absent or holds [None] (the page treats the two alike). *)
Record info : Type := mkInfo {
  dividendRate : option Q;
  dividendYield : option Q;
  payoutRatio : option Q;
  exDividendDate : option Z
}.

Definition fundamentals : Type := string -> info.

(** [ex_dividend_date] keeps the timestamp; [None] is the string ['N/A'].
    The [strftime] rendering of the date is not modelled. *)
Record dividend_record : Type := mkRecord {
  d_ticker : string;
  d_shares : Q;
  dividend_rate : Q;
  dividend_yield : Q;
  payout_ratio : Q;
  ex_dividend_date : option Z;
  yearly_dividend_total : Q
}.

(** [x * 100 if x else 0] on an optional field. *)
Definition percent_or_zero (field : option Q) : Q :=
  match field with
  | Some x => if Qzerob x then 0 else x * 100
  | None => 0
  end.

Definition truthy_timestamp (field : option Z) : option Z :=
  match field with
  | Some ts => if (ts =? 0)%Z then None else Some ts
  | None => None
  end.

Definition get_dividend_info (yf : fundamentals) (t : string) (sh : Q)
  : option dividend_record :=
  let i := yf t in
  match dividendRate i with
  | Some rate =>
      Some (mkRecord t sh rate
              (percent_or_zero (dividendYield i))
              (percent_or_zero (payoutRatio i))
              (truthy_timestamp (exDividendDate i))
              (sh * rate))
  | None => None
  end.

(** The loop of [main] that collects [dividend_data]. *)
Fixpoint dividend_data (yf : fundamentals) (portfolio : Store.table)
  : list dividend_record :=
  match portfolio with
  | [] => []
  | row :: rest =>
      match get_dividend_info yf (Store.ticker row) (Store.shares row) with
      | Some div_info => div_info :: dividend_data yf rest
      | None => dividend_data yf rest
      end
  end.

(** A column is formatted with [.2f] and parsed back before it is summed
    or averaged. *)
Definition fmt2 (x : Q) : Q := round_to 2 x.

Definition total_yearly_dividends (df : list dividend_record) : Q :=
  Qsum (map (fun r => fmt2 (yearly_dividend_total r)) df).

Definition yield_column (df : list dividend_record) : list Q :=
  map (fun r => fmt2 (dividend_yield r)) df.

Definition average_yield (df : list dividend_record) : Q :=
  Qsum (yield_column df) / inject_Z (Z.of_nat (List.length df)).

(** The two figures [main] shows, or [None] when it writes
    "No dividend-paying stocks found in your portfolio." *)
Definition aggregates (yf : fundamentals) (portfolio : Store.table)
  : option (Q * Q) :=
  match dividend_data yf portfolio with
  | [] => None
  | df => Some (total_yearly_dividends df, average_yield df)
  end.

End Dividends.

(** ** pandas: a [DataFrame] of float64 columns over a date index *)

Record DataFrame : Type := mkFrame {
  index : list Z;
  columns : list (string * list fl)
}.

(** Every column has one cell per date. *)
Definition aligned (df : DataFrame) : Prop :=
  Forall (fun c => List.length (snd c) = List.length (index df)) (columns df).

Definition map_columns (f : list fl -> list fl) (df : DataFrame) : DataFrame :=
  mkFrame (index df) (map (fun c => (fst c, f (snd c))) (columns df)).

(** The cell of column [c] in row [i]. *)
Definition cell (c : list fl) (i : nat) : fl := nth i c NaN.

(** [sum(axis=1)] over the given columns: one skipna sum per row. *)
Definition row_sums (nrows : nat) (cols : list (list fl)) : list fl :=
  map (fun i => nansum (map (fun c => cell c i) cols)) (seq 0 nrows).

(** ** pages/Risk.py *)

Module Risk.

(** [df_prices.bfill(inplace=True)]. *)
Definition df_prices_filled (df_prices : DataFrame) : DataFrame :=
  map_columns bfill df_prices.

(** [returns_df = df_prices.pct_change(1)], on the filled table. *)
Definition returns_df (pad : bool) (df_prices : DataFrame) : DataFrame :=
  map_columns (pct_change pad) (df_prices_filled df_prices).

(** [DataFrame.cov()] takes, for each pair of columns, the rows where both
    cells are finite. *)
Fixpoint finite_pairs (xs ys : list fl) : list (Q * Q) :=
  match xs, ys with
  | x :: xs', y :: ys' =>
      match x, y with
      | Fin a, Fin b => (a, b) :: finite_pairs xs' ys'
      | _, _ => finite_pairs xs' ys'
      end
  | _, _ => []
  end.

(** The covariance of the pairs kept: NaN below the minimum of one
    observation and when the divisor [nobs - 1] is zero. *)
Definition cov_of_pairs (ps : list (Q * Q)) : fl :=
  let nobs := List.length ps in
  if (nobs <? 1)%nat then NaN
  else if (nobs - 1 =? 0)%nat then NaN
  else
    let n := inject_Z (Z.of_nat nobs) in
    let meanx := Qsum (map fst ps) / n in
    let meany := Qsum (map snd ps) / n in
    let covxy :=
      Qsum (map (fun p => (fst p - meanx) * (snd p - meany)) ps) in
    Fin (covxy / inject_Z (Z.of_nat (nobs - 1))).

(** One entry of the covariance matrix. *)
Definition cov_entry (xs ys : list fl) : fl :=
  cov_of_pairs (finite_pairs xs ys).

(** A two-dimensional array with its shape. *)
Record ndarray2 : Type := mkArray {
  nrows : nat;
  ncols : nat;
  data : list (list fl)
}.

Definition cov (df : DataFrame) : ndarray2 :=
  let cols := map snd (columns df) in
  let k := List.length cols in
  mkArray k k (map (fun ci => map (fun cj => cov_entry ci cj) cols) cols).

Definition entry (m : ndarray2) (i j : nat) : fl :=
  nth j (nth i (data m) []) NaN.

Inductive exn : Type :=
| ValueError_shapes_not_aligned (left_dim right_dim : nat).

Inductive result (A : Type) : Type :=
| Ok (a : A)
| Raise (e : exn).
Arguments Ok {A} a.
Arguments Raise {A} e.

(** The sum of products over one axis; NaN and the infinities propagate. *)
Definition fdot (a b : list fl) : fl :=
  fold_left fadd (map (fun p => fmul (fst p) (snd p)) (combine a b)) (Fin 0).

(** [np.dot] of a matrix and a vector. *)
Definition np_dot_matrix_vector (m : ndarray2) (v : list fl)
  : result (list fl) :=
  if (ncols m =? List.length v)%nat
  then Ok (map (fun row => fdot row v) (data m))
  else Raise (ValueError_shapes_not_aligned (ncols m) (List.length v)).

(** [np.dot] of two vectors. *)
Definition np_dot_vector_vector (a b : list fl) : result fl :=
  if (List.length a =? List.length b)%nat
  then Ok (fdot a b)
  else Raise (ValueError_shapes_not_aligned (List.length a) (List.length b)).

(** [var_p = np.dot(np.transpose(weights_list),
                    np.dot(vcv_matrix, weights_list))];
    the transpose of a one-dimensional array is the array itself. *)
Definition var_p (weights_list : list fl) (returns : DataFrame) : result fl :=
  match np_dot_matrix_vector (cov returns) weights_list with
  | Raise e => Raise e
  | Ok sigma_w => np_dot_vector_vector weights_list sigma_w
  end.

(** [weights_list]: the ['Portfolio %'] column, computed as on the main
    page. *)
Definition weights_list (yf : Valuation.provider) (portfolio : Store.table)
  : list fl :=
  Valuation.portfolio_pct yf portfolio.

Section Sqrt.

Variable sqrtQ : Q -> Q.

Definition sqrt_250 : fl := fsqrt sqrtQ (Fin 250).

(** [sd_p_annual]. *)
Definition sd_p_annual (weights : list fl) (returns : DataFrame)
  : result fl :=
  match var_p weights returns with
  | Raise e => Raise e
  | Ok v => Ok (fmul (fsqrt sqrtQ v) sqrt_250)
  end.

(** [individual_risks = np.std(returns_df, axis=0, ddof=1) * np.sqrt(250)],
    a Series indexed by ticker. *)
Definition individual_risks (returns : DataFrame) : list (string * fl) :=
  map (fun c => (fst c, fmul (nanstd sqrtQ (snd c)) sqrt_250))
      (columns returns).

End Sqrt.

(** [sort_values(ascending=False)].  pandas sets the NaN entries aside,
    reverses the others, sorts them ascending with numpy's default
    quicksort, reverses the result and appends the NaN entries.

    numpy's quicksort is an insertion sort on an array of at most 17
    entries: an entry moves left past the entries that are strictly
    greater.  That is the sort written here.  A longer array numpy first
    partitions around a median of three, which is left out: on such an
    array numpy may leave entries of equal value in another order than
    [argsort] does.  The two agree in all else, the result being sorted and
    a reordering of the input, and only that is proved of [argsort] and
    used below. *)
Fixpoint insert_sorted (x : string * fl) (sorted : list (string * fl))
  : list (string * fl) :=
  match sorted with
  | [] => [x]
  | y :: rest =>
      if fltb (snd x) (snd y) then x :: y :: rest
      else y :: insert_sorted x rest
  end.

Definition argsort (s : list (string * fl)) : list (string * fl) :=
  fold_left (fun sorted x => insert_sorted x sorted) s [].

Definition sort_values_descending (s : list (string * fl))
  : list (string * fl) :=
  let non_nans := filter (fun e => notna (snd e)) s in
  let nans := filter (fun e => is_nan (snd e)) s in
  rev (argsort (rev non_nans)) ++ nans.

(** [sorted_risks]. *)
Definition sorted_risks (individual : list (string * fl))
  : list (string * fl) :=
  sort_values_descending individual.

End Risk.

(** ** pages/2_Portfolio_Analysis.py *)

Module Analysis.

(** [shares_df]: the ['shares'] column indexed by ticker. *)
Definition shares_df (portfolio : Store.table) : list (string * Q) :=
  map (fun r => (Store.ticker r, Store.shares r)) portfolio.

(** [prices_df[ticker] = prices_df[ticker] * shares]: the column of that
    name is replaced, a name that is no column changes nothing. *)
Definition scale_column (t : string) (sh : Q) (df : DataFrame) : DataFrame :=
  mkFrame (index df)
    (map (fun c =>
            if String.eqb (fst c) t
            then (fst c, map (fun price => fmul price (Fin sh)) (snd c))
            else c)
         (columns df)).

(** The loop over [shares_df.index].  The tickers are distinct here: a
    portfolio that repeats a ticker has more weights than price columns
    and has already failed in [np.dot]. *)
Definition multiply_by_shares (shares : list (string * Q)) (prices_df : DataFrame)
  : DataFrame :=
  fold_left (fun df row => scale_column (fst row) (snd row) df)
            shares prices_df.

(** [prices_df['Total Value'] = prices_df.iloc[:, 1:].sum(axis=1)]. *)
Definition iloc_columns_from_1 (df : DataFrame) : list (list fl) :=
  map snd (tl (columns df)).

Definition total_value (shares : list (string * Q)) (prices_df : DataFrame)
  : list fl :=
  let valued := multiply_by_shares shares prices_df in
  row_sums (List.length (index valued)) (iloc_columns_from_1 valued).

(** The value the specification describes: at each date the sum, over
    every ticker of the table, of the price times the shares held. *)
Definition shares_of (shares : list (string * Q)) (t : string) : Q :=
  match find (fun row => String.eqb (fst row) t) shares with
  | Some row => snd row
  | None => 1
  end.

Definition portfolio_value (shares : list (string * Q)) (prices_df : DataFrame)
  : list fl :=
  map (fun i =>
         nansum (map (fun c => fmul (cell (snd c) i)
                                    (Fin (shares_of shares (fst c))))
                     (columns prices_df)))
      (seq 0 (List.length (index prices_df))).

(** [prices_df["return"] = prices_df['Total Value'].pct_change().fillna(0) * 100]. *)
Definition return_column (pad : bool) (total : list fl) : list fl :=
  map (fun x => fmul x (Fin 100)) (fillna0 (pct_change pad total)).

Section Sqrt.

Variable sqrtQ : Q -> Q.

(** [sharpe_ratio = ((mean / std) * np.sqrt(250)).round(3)]. *)
Definition sharpe_ratio (pad : bool) (total : list fl) : fl :=
  let ret := return_column pad total in
  fround 3 (fmul (fdiv (nanmean ret) (nanstd sqrtQ ret))
                 (fsqrt sqrtQ (Fin 250))).

(** The figure under "Portfolio Sharpe Ratio", from the holdings and the
    filled price table. *)
Definition portfolio_sharpe (pad : bool) (portfolio : Store.table)
  (df_prices : DataFrame) : fl :=
  sharpe_ratio pad (total_value (shares_df portfolio) df_prices).

End Sqrt.

(** [cum_return]: last against first total value, in percent; [None] is
    the [IndexError] of [iloc] on an empty column. *)
Definition cum_return (total : list fl) : option fl :=
  match total with
  | [] => None
  | first :: _ =>
      let final := last total NaN in
      Some (fmul (fdiv (fsub final first) first) (Fin 100))
  end.

End Analysis.

(** ** The covariance and the quadratic form on rational columns *)

(** The finite values of a column, in order. *)
Fixpoint finite_part (c : list fl) : list Q :=
  match c with
  | [] => []
  | Fin q :: rest => q :: finite_part rest
  | _ :: rest => finite_part rest
  end.

Definition meanQ (xs : list Q) : Q :=
  Qsum xs / inject_Z (Z.of_nat (List.length xs)).

(** The sample variance (divisor N - 1) of the values of a column; NaN
    below two values. *)
Definition sample_variance (c : list fl) : fl :=
  let xs := finite_part c in
  if (List.length xs <? 2)%nat then NaN
  else Fin (Qsum (map (fun x => (x - meanQ xs) * (x - meanQ xs)) xs)
            / inject_Z (Z.of_nat (List.length xs - 1))).

Definition dotQ (a b : list Q) : Q :=
  Qsum (map (fun p => fst p * snd p) (combine a b)).

(** The values of a column less their mean. *)
Definition center (xs : list Q) : list Q := map (fun x => x - meanQ xs) xs.

(** The sample covariance (divisor N - 1) of two columns of N values. *)
Definition covQ (xs ys : list Q) : Q :=
  dotQ (center xs) (center ys) / inject_Z (Z.of_nat (List.length xs - 1)).

Definition sample_covariance_matrix (X : list (list Q)) : list (list Q) :=
  map (fun xi => map (fun xj => covQ xi xj) X) X.

(** The quadratic form: the sum over i and j of [w_i * S_ij * w_j]. *)
Definition quadratic_form (w : list Q) (S : list (list Q)) : Q :=
  Qsum (map (fun wr =>
               Qsum (map (fun sw => fst wr * fst sw * snd sw)
                         (combine (snd wr) w)))
            (combine w S)).

(** ** What the statements speak of *)

(** A float that is a number and not below zero. *)
Definition nonnegative (x : fl) : Prop := fleb (Fin 0) x = true.

(** A float that only a division by zero (or by a missing value) produces. *)
Definition divide_by_zero_artifact (r : fl) : Prop :=
  r = NaN \/ r = PInf \/ r = NInf.

(** [a] may stand before [b] in a descending ranking with NaN last. *)
Definition ranks_before (a b : string * fl) : Prop :=
  is_nan (snd b) = true \/ fleb (snd b) (snd a) = true.

(** Ascending order of the values, none of them NaN. *)
Definition ascends (a b : string * fl) : Prop :=
  fleb (snd a) (snd b) = true.

(** The portfolio has the record of [id0] with the given account, shares
    and cost basis. *)
Definition record_updated (id0 : Z) (account0 : string)
  (shares0 cost_basis0 : Q) (portfolio : Store.table) : Prop :=
  exists r, In r portfolio
            /\ Store.id r = id0
            /\ Store.account r = account0
            /\ Store.shares r == shares0
            /\ Store.cost_basis r == cost_basis0.

(** The entries of equal value stand in the alphabetical order of their
    tickers. *)
Definition ties_alphabetical (l : list (string * fl)) : Prop :=
  forall front a between b back,
    l = front ++ a :: between ++ b :: back ->
    feq (snd a) (snd b) ->
    String.leb (fst a) (fst b) = true.

(** The dates kept for the returns have no missing price left. *)
Definition missing_dates_dropped (pad : bool) (df_prices : DataFrame) : Prop :=
  forall (i : nat) (d : Z) (t : string) (c : list fl),
    nth_error (index df_prices) i = Some d ->
    In d (index (Risk.returns_df pad df_prices)) ->
    In (t, c) (columns (Risk.df_prices_filled df_prices)) ->
    is_nan (cell c i) = false.

(** ** Intermediate values of the computations *)

(** What the loop over [shares_df] makes of one column. *)
Definition scale_by (shares : list (string * Q)) (c : string * list fl)
  : string * list fl :=
  fold_left
    (fun col row =>
       if String.eqb (fst col) (fst row)
       then (fst col, map (fun price => fmul price (Fin (snd row))) (snd col))
       else col)
    shares c.

(** The variance of finite values, as [nanvar] computes it. *)
Definition varQ (qs : list Q) : Q :=
  let m := fold_left Qplus qs 0 / inject_Z (Z.of_nat (List.length qs)) in
  fold_left Qplus (map (fun q => (m + - q) * (m + - q)) qs) 0
  / inject_Z (Z.of_nat (List.length qs - 1)).

(** The number [cov_of_pairs] computes on at least two pairs. *)
Definition cov_pairs_Q (ps : list (Q * Q)) : Q :=
  let n := inject_Z (Z.of_nat (List.length ps)) in
  Qsum (map (fun p => (fst p - Qsum (map fst ps) / n)
                      * (snd p - Qsum (map snd ps) / n)) ps)
  / inject_Z (Z.of_nat (List.length ps - 1)).

Definition swap (p : Q * Q) : Q * Q := (snd p, fst p).

(** The products summed from the left, as [fdot] sums them. *)
Definition dotL (a b : list Q) : Q :=
  fold_left Qplus (map (fun p => fst p * snd p) (combine a b)) 0.

Definition vadd (a b : list Q) : list Q :=
  map (fun p => fst p + snd p) (combine a b).

Definition vscale (w : Q) (a : list Q) : list Q := map (Qmult w) a.

(** The combination [w1 * d1 + w2 * d2 + ...] of vectors of length [n]. *)
Definition lincomb (n : nat) (ws : list Q) (ds : list (list Q)) : list Q :=
  fold_right (fun p acc => vadd (vscale (fst p) (snd p)) acc)
             (repeat 0 n) (combine ws ds).

(** ** Sample inputs *)

(** A square root on the rationals that computes: zero at zero, and
    otherwise six decimals, rounded up. *)
Definition sqrt_up (q : Q) : Q :=
  if Qzerob q then 0
  else Qmake (Z.sqrt (Qfloor (q * inject_Z (10 ^ 12))) + 1) (10 ^ 6).

Definition sample_table : Store.table :=
  [ Store.mkStock 1 "MSFT" "Webull" 10 (100 # 1);
    Store.mkStock 2 "AAPL" "Fidelity" (5 # 2) (200 # 1);
    Store.mkStock 3 "KO" "HSA" 4 (50 # 1) ].

(** MSFT and KO are quoted, AAPL has an empty history. *)
Definition sample_provider : Valuation.provider :=
  fun t =>
    if String.eqb t "MSFT" then Valuation.Closes [Fin (150 # 1)]
    else if String.eqb t "AAPL" then Valuation.Closes []
    else if String.eqb t "KO" then Valuation.Closes [Fin (60 # 1)]
    else Valuation.Raises.

(** KO pays 2.00 a share at a yield of 1.234 percent; nothing else pays. *)
Definition sample_fundamentals : Dividends.fundamentals :=
  fun t =>
    if String.eqb t "KO"
    then Dividends.mkInfo (Some 2) (Some (1234 # 100000)) (Some (7 # 10))
                          (Some 1700000000%Z)
    else Dividends.mkInfo None None None None.

Definition tied_risks : list (string * fl) :=
  [ ("ZZZ"%string, Fin (3 # 10)); ("AAA"%string, Fin (3 # 10)) ].

(** AAA has no price at all over the two dates. *)
Definition unlisted_prices : DataFrame :=
  mkFrame [20240102; 20240103]%Z
    [ ("AAA"%string, [NaN; NaN]);
      ("BBB"%string, [Fin (10 # 1); Fin (11 # 1)]) ].

Definition two_prices : DataFrame :=
  mkFrame [20240102; 20240103]%Z
    [ ("AAA"%string, [Fin (10 # 1); Fin (11 # 1)]);
      ("BBB"%string, [Fin (20 # 1); Fin (21 # 1)]) ].

Definition two_shares : list (string * Q) :=
  [ ("AAA"%string, 2 # 1); ("BBB"%string, 3 # 1) ].

Definition frozen_value : list fl :=
  [Fin (2400 # 1); Fin (2400 # 1); Fin (2400 # 1)].

Definition sample_returns : DataFrame :=
  mkFrame [20240102; 20240103; 20240104; 20240105]%Z
    [ ("AAA"%string, [NaN; Fin (1 # 10); Fin (- 1 # 10); Fin (3 # 10)]);
      ("BBB"%string, [NaN; Fin (2 # 10); Fin 0; Fin (1 # 10)]) ].

Definition two_day_prices : DataFrame :=
  mkFrame [20240102; 20240103]%Z
    [ ("AAA"%string, [Fin (10 # 1); Fin (11 # 1)]) ].

(** ** My_portfolio.py: the database file *)

Module Sqlite.

(** The [stocks] table: whether it has the [account] column, its rows in
    rowid order, and the largest id AUTOINCREMENT has handed out (the entry
    of [sqlite_sequence]).  The [account] field of a row means something
    only when the column exists. *)
Record stocks_table : Type := mkTable {
  has_account : bool;
  rows : Store.table;
  sequence : Z
}.

(** [portfolio.db]: the table may not exist yet. *)
Definition database : Type := option stocks_table.

Inductive OperationalError : Type :=
| no_such_table
| no_column_named_account.

Inductive outcome (A : Type) : Type :=
| Done (a : A)
| Fails (e : OperationalError).
Arguments Done {A} a.
Arguments Fails {A} e.

(** [CREATE TABLE IF NOT EXISTS stocks (id, ticker, shares, cost_basis)]:
    the table it creates has no [account] column; an existing table is left
    as it is. *)
Definition init_db (db : database) : database :=
  match db with
  | None => Some (mkTable false [] 0)
  | Some t => Some t
  end.

(** [SELECT * FROM stocks]. *)
Definition load_portfolio (db : database) : outcome Store.table :=
  match db with
  | None => Fails no_such_table
  | Some t => Done (rows t)
  end.

Definition max_id (t : Store.table) : Z :=
  fold_right Z.max 0%Z (map Store.id t).

(** The id AUTOINCREMENT gives the next row: one more than every id of the
    table and every id handed out before. *)
Definition next_id (t : stocks_table) : Z :=
  (Z.max (sequence t) (max_id (rows t)) + 1)%Z.

(** The [INSERT] of [save_stock] on a table that has the column. *)
Definition insert_row (ticker0 account0 : string) (shares0 cost_basis0 : Q)
  (t : stocks_table) : stocks_table :=
  mkTable (has_account t)
    (rows t ++ [Store.mkStock (next_id t) ticker0 account0 shares0 cost_basis0])
    (next_id t).

Definition save_stock (ticker0 account0 : string) (shares0 cost_basis0 : Q)
  (db : database) : outcome database :=
  match db with
  | None => Fails no_such_table
  | Some t =>
      if has_account t
      then Done (Some (insert_row ticker0 account0 shares0 cost_basis0 t))
      else Fails no_column_named_account
  end.

(** The statement of [update_stock] on the rows; the sequence is not
    touched by an [UPDATE] or a [DELETE]. *)
Definition update_rows (id0 : Z) (account0 : string) (shares0 cost_basis0 : Q)
  (t : stocks_table) : stocks_table :=
  mkTable (has_account t)
    (Store.update_stock id0 account0 shares0 cost_basis0 (rows t))
    (sequence t).

(** [update_stock] on the file: the [UPDATE] names the [account] column,
    the [DELETE] does not. *)
Definition update_stock (id0 : Z) (account0 : string) (shares0 cost_basis0 : Q)
  (db : database) : outcome database :=
  match db with
  | None => Fails no_such_table
  | Some t =>
      if Qltb 0 shares0 && negb (has_account t)
      then Fails no_column_named_account
      else Done (Some (update_rows id0 account0 shares0 cost_basis0 t))
  end.

(** The two buttons of the page that write: "Add Stock" and "Update". *)
Inductive action : Type :=
| Add (ticker0 account0 : string) (shares0 cost_basis0 : Q)
| Update (id0 : Z) (account0 : string) (shares0 cost_basis0 : Q).

Definition run (a : action) (db : database) : outcome database :=
  match a with
  | Add ticker0 account0 shares0 cost_basis0 =>
      save_stock ticker0 account0 shares0 cost_basis0 db
  | Update id0 account0 shares0 cost_basis0 =>
      update_stock id0 account0 shares0 cost_basis0 db
  end.

(** A statement that fails is not committed: the file stays as it was. *)
Definition press (a : action) (db : database) : database :=
  match run a db with
  | Done db' => db'
  | Fails _ => db
  end.

Definition session (actions : list action) (db : database) : database :=
  fold_left (fun db a => press a db) actions db.

Definition ids (db : database) : list Z :=
  match db with
  | None => []
  | Some t => map Store.id (rows t)
  end.

(** The ids ascend with the rows and none exceeds the sequence. *)
Definition consistent (db : database) : Prop :=
  match db with
  | None => True
  | Some t =>
      StronglySorted Z.lt (map Store.id (rows t))
      /\ Forall (fun i => (i <= sequence t)%Z) (map Store.id (rows t))
  end.

End Sqlite.

(** The sample table in a file whose table has the account column. *)
Definition sample_db : Sqlite.database :=
  Some (Sqlite.mkTable true sample_table 3).

(** Two rows in a table of the columns [init_db] names: it has no account
    column, and the account field of its rows stands for nothing. *)
Definition legacy_db : Sqlite.database :=
  Some (Sqlite.mkTable false
          [ Store.mkStock 1 "MSFT" "" 10 (100 # 1);
            Store.mkStock 2 "AAPL" "" (5 # 2) (200 # 1) ]
          2).

(** The id is spent: no row has it and the sequence has passed it. *)
Definition retired (id0 : Z) (db : Sqlite.database) : Prop :=
  match db with
  | None => True
  | Some t =>
      (id0 <= Sqlite.sequence t)%Z
      /\ ~ In id0 (map Store.id (Sqlite.rows t))
  end.

(** ** My_portfolio.py: gain and loss *)

Module Summary.

(** [cost_basis * shares], what a position has cost. *)
Definition cost (r : Store.stock) : Q := Store.cost_basis r * Store.shares r.

(** ['Gain/Loss'] = ['Total Value'] - cost. *)
Definition gain_loss (yf : Valuation.provider) (r : Store.stock) : fl :=
  fsub (Valuation.total_value yf r) (Fin (cost r)).

(** ['Gain/Loss %'] = ['Gain/Loss'] / cost * 100. *)
Definition gain_loss_pct (yf : Valuation.provider) (r : Store.stock) : fl :=
  fmul (fdiv (gain_loss yf r) (Fin (cost r))) (Fin 100).

(** [display_df.sort_values('Total Value', ascending=False)]: the tickers
    with their total value, in the order of the table shown. *)
Definition sorted_total_values (yf : Valuation.provider)
  (portfolio : Store.table) : list (string * fl) :=
  Risk.sort_values_descending
    (map (fun r => (Store.ticker r, Valuation.total_value yf r)) portfolio).

(** [total_value]: the ['Total Value'] column is formatted with [.2f],
    parsed back and summed. *)
Definition total_value (yf : Valuation.provider) (portfolio : Store.table)
  : fl :=
  nansum (map (fun e => fround 2 (snd e)) (sorted_total_values yf portfolio)).

(** [total_cost], summed over the stored portfolio. *)
Definition total_cost (portfolio : Store.table) : Q :=
  fold_left Qplus (map cost portfolio) 0.

Definition total_gain_loss (yf : Valuation.provider)
  (portfolio : Store.table) : fl :=
  fsub (total_value yf portfolio) (Fin (total_cost portfolio)).

(** [(total_gain_loss / total_cost) * 100 if total_cost > 0 else 0]. *)
Definition total_gain_loss_percent (yf : Valuation.provider)
  (portfolio : Store.table) : fl :=
  if Qltb 0 (total_cost portfolio)
  then fmul (fdiv (total_gain_loss yf portfolio) (Fin (total_cost portfolio)))
            (Fin 100)
  else Fin 0.

End Summary.

(** The prices are numbers or missing, never infinite. *)
Definition prices_not_infinite (yf : Valuation.provider)
  (portfolio : Store.table) : Prop :=
  forall r, In r portfolio ->
    Valuation.current_price yf r <> PInf
    /\ Valuation.current_price yf r <> NInf.

(** A float that is a number or NaN. *)
Definition number_or_nan (x : fl) : Prop :=
  is_finite x = true \/ is_nan x = true.

(** ** pages/Dividends.py: the payout chart *)

Module DividendChart.

Inductive color : Type := green | yellow | red.

(** ['green' if x < 50 else 'yellow' if 50 <= x < 70 else 'red']. *)
Definition payout_color (x : Q) : color :=
  if Qltb x 50 then green
  else if Qle_bool 50 x && Qltb x 70 then yellow
  else red.

(** [colors]: one per row, from the ['Payout'] column parsed back. *)
Definition colors (df : list Dividends.dividend_record) : list color :=
  map (fun r => payout_color (Dividends.fmt2 (Dividends.payout_ratio r))) df.

(** How alarming a colour is. *)
Definition alarm (c : color) : nat :=
  match c with green => 0 | yellow => 1 | red => 2 end.

End DividendChart.

(** The position has a dividend rate. *)
Definition pays (yf : Dividends.fundamentals) (r : Store.stock) : bool :=
  match Dividends.dividendRate (yf (Store.ticker r)) with
  | Some _ => true
  | None => false
  end.

(** ** pages/Risk.py: from the holdings to the portfolio variance *)

Module RiskPage.

(** [ticker.history(start, end)['Close']] for each ticker, on the dates of
    the window: every ticker is taken to have a history, a series on the
    DatetimeIndex of yfinance, and the columns are taken as already aligned
    on one index. *)
Definition history : Type := string -> list fl.

(** [data[stock] = ...]: a key that is there keeps its place and takes the
    new value, a new key goes last. *)
Fixpoint dict_set (k : string) (v : list fl) (d : list (string * list fl))
  : list (string * list fl) :=
  match d with
  | [] => [(k, v)]
  | (k', v') :: rest =>
      if String.eqb k' k then (k', v) :: rest
      else (k', v') :: dict_set k v rest
  end.

(** [stock_list = risk_df['ticker'].tolist()]. *)
Definition stock_list (portfolio : Store.table) : list string :=
  map Store.ticker portfolio.

(** The loop that fills [data]. *)
Definition data (yf : history) (stocks : list string)
  : list (string * list fl) :=
  fold_left (fun d stock => dict_set stock (yf stock) d) stocks [].

(** The index of [pd.DataFrame(data)]: the DatetimeIndex of the histories
    when [data] has a key, the empty RangeIndex of [pd.DataFrame({})] when it
    has none. *)
Inductive index_type : Type :=
| DatetimeIndex
| RangeIndex.

Definition index_of (d : list (string * list fl)) : index_type :=
  match d with
  | [] => RangeIndex
  | _ :: _ => DatetimeIndex
  end.

(** [df_prices = pd.DataFrame(data)]: one column per key, on the dates of
    the histories; no row and no column when [data] is empty. *)
Definition df_prices (dates : list Z) (yf : history) (portfolio : Store.table)
  : DataFrame :=
  match data yf (stock_list portfolio) with
  | [] => mkFrame [] []
  | d => mkFrame dates d
  end.

(** What [main] raises on the way to [var_p]. *)
Inductive exn : Type :=
| AttributeError_tz_localize
| Numpy (e : Risk.exn).

Inductive result (A : Type) : Type :=
| Returns (a : A)
| Raises (e : exn).
Arguments Returns {A} a.
Arguments Raises {A} e.

(** [df_prices.index = df_prices.index.tz_localize(None)]: a DatetimeIndex
    keeps its dates and loses its timezone; a RangeIndex has no attribute
    [tz_localize]. *)
Definition tz_localize_index (kind : index_type) (df : DataFrame)
  : result DataFrame :=
  match kind with
  | DatetimeIndex => Returns df
  | RangeIndex => Raises AttributeError_tz_localize
  end.

(** [var_p] as the page computes it: the weights, the frame of the
    histories, its index made timezone-naive, and then the computation of
    [Risk.var_p] on the returns. *)
Definition var_p (pad : bool) (prices : Valuation.provider)
  (dates : list Z) (yf : history) (portfolio : Store.table)
  : result fl :=
  let weights_list := Risk.weights_list prices portfolio in
  match tz_localize_index (index_of (data yf (stock_list portfolio)))
                          (df_prices dates yf portfolio) with
  | Raises e => Raises e
  | Returns df =>
      match Risk.var_p weights_list (Risk.returns_df pad df) with
      | Risk.Ok v => Returns v
      | Risk.Raise e => Raises (Numpy e)
      end
  end.

End RiskPage.

(** ** pages/2_Portfolio_Analysis.py: the per-asset Sharpe ratio *)

Module AnalysisPage.

Section Sqrt.

Variable sqrtQ : Q -> Q.

(** [sharp_individual = (returns_df.mean() / returns_df.std()) * np.sqrt(250)],
    a Series indexed by ticker. *)
Definition sharp_individual (returns : DataFrame) : list (string * fl) :=
  map (fun c => (fst c,
                 fmul (fdiv (nanmean (snd c)) (nanstd sqrtQ (snd c)))
                      (fsqrt sqrtQ (Fin 250))))
      (columns returns).

End Sqrt.

End AnalysisPage.


(* ================================================================== *)
(** * Part II: properties *)
(* ================================================================== *)

(** ** Rationals and floats: basic facts *)

Lemma Qltb_lt (a b : Q) : Qltb a b = true <-> a < b.
Proof.
  unfold Qltb. rewrite negb_true_iff.
  split; intro H.
  - apply Qnot_le_lt. intro Hle. apply Qle_bool_iff in Hle. congruence.
  - destruct (Qle_bool b a) eqn:E; [|reflexivity].
    apply Qle_bool_iff in E. exfalso. apply (Qlt_not_le _ _ H E).
Qed.

Lemma Qltb_ge (a b : Q) : Qltb a b = false <-> b <= a.
Proof.
  unfold Qltb. rewrite negb_false_iff. apply Qle_bool_iff.
Qed.

Lemma Qzerob_eq (q : Q) : Qzerob q = true <-> q == 0.
Proof.
  unfold Qzerob, Qeq. simpl. rewrite Z.eqb_eq. lia.
Qed.

Lemma feq_refl (x : fl) : feq x x.
Proof. destruct x; simpl; auto. reflexivity. Qed.

Lemma feq_sym (x y : fl) : feq x y -> feq y x.
Proof. destruct x, y; simpl; auto. intro H. symmetry. exact H. Qed.

Lemma feq_trans (x y z : fl) : feq x y -> feq y z -> feq x z.
Proof.
  destruct x, y, z; simpl; auto; try tauto.
  intros H1 H2. rewrite H1. exact H2.
Qed.

#[global] Instance feq_Equivalence : Equivalence feq.
Proof.
  split; [exact feq_refl | exact feq_sym | exact feq_trans].
Qed.

(** ** The holdings store *)

Section StoreFacts.

Import Store.

Variables (id0 : Z) (account0 : string) (shares0 cost_basis0 : Q).

Lemma sql_delete_absent (t : table) :
  ~ In id0 (map id (sql_delete id0 t)).
Proof.
  unfold sql_delete. intro H.
  apply in_map_iff in H. destruct H as [r [Hid Hin]].
  apply filter_In in Hin. destruct Hin as [_ Hne].
  apply negb_true_iff, Z.eqb_neq in Hne. contradiction.
Qed.

Lemma sql_update_ids (t : table) :
  map id (sql_update id0 account0 shares0 cost_basis0 t) = map id t.
Proof.
  unfold sql_update. rewrite map_map. apply map_ext.
  intro r. destruct (id r =? id0)%Z; reflexivity.
Qed.

Lemma sql_update_tickers (t : table) :
  map ticker (sql_update id0 account0 shares0 cost_basis0 t) = map ticker t.
Proof.
  unfold sql_update. rewrite map_map. apply map_ext.
  intro r. destruct (id r =? id0)%Z; reflexivity.
Qed.

Lemma sql_update_row (t : table) (r : stock) :
  In r (sql_update id0 account0 shares0 cost_basis0 t) ->
  id r = id0 ->
  account r = account0 /\ shares r = shares0 /\ cost_basis r = cost_basis0.
Proof.
  unfold sql_update. intros Hin Hid.
  apply in_map_iff in Hin. destruct Hin as [r0 [Hr _]].
  destruct (id r0 =? id0)%Z eqn:E.
  - subst r. simpl. auto.
  - subst r. apply Z.eqb_neq in E. contradiction.
Qed.

Lemma sql_update_others (t : table) :
  filter (fun r => negb (id r =? id0)%Z)
         (sql_update id0 account0 shares0 cost_basis0 t)
  = filter (fun r => negb (id r =? id0)%Z) t.
Proof.
  unfold sql_update. induction t as [|r t IH]; [reflexivity|].
  simpl. destruct (id r =? id0)%Z eqn:E; simpl; rewrite E; simpl.
  - exact IH.
  - f_equal. exact IH.
Qed.

Lemma sql_delete_others (t : table) :
  filter (fun r => negb (id r =? id0)%Z) (sql_delete id0 t)
  = filter (fun r => negb (id r =? id0)%Z) t.
Proof.
  unfold sql_delete. induction t as [|r t IH]; [reflexivity|].
  simpl. destruct (id r =? id0)%Z eqn:E; simpl.
  - exact IH.
  - rewrite E. simpl. f_equal. exact IH.
Qed.

End StoreFacts.

(** C9 (amended).  For a position id present in the [stocks] table,
    [update_stock] with shares <= 0 succeeds on any table and the portfolio
    loaded afterwards has no record of that id; with shares > 0, on a table
    that has the [account] column, it succeeds and the portfolio loaded
    afterwards keeps the record, with its account, shares and cost_basis
    set to the given ones. *)
Theorem update_stock_deletes_or_updates
  (t : Sqlite.stocks_table) (id0 : Z) (account0 : string)
  (shares0 cost_basis0 : Q)
  (present : In id0 (Sqlite.ids (Some t))) :
  (shares0 <= 0 ->
   exists db' portfolio,
     Sqlite.update_stock id0 account0 shares0 cost_basis0 (Some t)
     = Sqlite.Done db'
     /\ Sqlite.load_portfolio db' = Sqlite.Done portfolio
     /\ ~ In id0 (map Store.id portfolio))
  /\ (0 < shares0 -> Sqlite.has_account t = true ->
      exists db' portfolio,
        Sqlite.update_stock id0 account0 shares0 cost_basis0 (Some t)
        = Sqlite.Done db'
        /\ Sqlite.load_portfolio db' = Sqlite.Done portfolio
        /\ In id0 (map Store.id portfolio)
        /\ forall r, In r portfolio -> Store.id r = id0 ->
             Store.account r = account0
             /\ Store.shares r = shares0
             /\ Store.cost_basis r = cost_basis0).
Proof.
  simpl in present. unfold Sqlite.update_stock.
  split.
  - intro Hle. apply Qltb_ge in Hle. rewrite Hle.
    exists (Some (Sqlite.update_rows id0 account0 shares0 cost_basis0 t)).
    exists (Store.sql_delete id0 (Sqlite.rows t)).
    split; [reflexivity|]. split.
    + unfold Sqlite.update_rows, Store.update_stock. rewrite Hle.
      reflexivity.
    + apply sql_delete_absent.
  - intros Hlt Hcol. apply Qltb_lt in Hlt. rewrite Hlt, Hcol.
    exists (Some (Sqlite.update_rows id0 account0 shares0 cost_basis0 t)).
    exists (Store.sql_update id0 account0 shares0 cost_basis0
              (Sqlite.rows t)).
    split; [reflexivity|]. split; [|split].
    + unfold Sqlite.update_rows, Store.update_stock. rewrite Hlt.
      reflexivity.
    + rewrite sql_update_ids. exact present.
    + intros r Hin Hid. eapply sql_update_row; eauto.
Qed.

(** C9 as stated fails on a table without the [account] column: the
    [UPDATE] for the present id 2 raises [OperationalError], nothing is
    committed, and the record keeps the shares and the cost basis it had. *)
Lemma update_stock_fails_without_account_column :
  In 2%Z (Sqlite.ids legacy_db)
  /\ Sqlite.update_stock 2 "HSA" 7 (1 # 1) legacy_db
     = Sqlite.Fails Sqlite.no_column_named_account
  /\ Sqlite.load_portfolio
       (Sqlite.press (Sqlite.Update 2 "HSA" 7 (1 # 1)) legacy_db)
     = Sqlite.Done
         [ Store.mkStock 1 "MSFT" "" 10 (100 # 1);
           Store.mkStock 2 "AAPL" "" (5 # 2) (200 # 1) ]
  /\ ~ record_updated 2 "HSA" 7 (1 # 1)
         [ Store.mkStock 1 "MSFT" "" 10 (100 # 1);
           Store.mkStock 2 "AAPL" "" (5 # 2) (200 # 1) ].
Proof.
  split; [simpl; auto|]. split; [reflexivity|]. split; [reflexivity|].
  intros [r [Hin [Hid [Hacc _]]]].
  destruct Hin as [<- | [<- | []]]; simpl in *; discriminate.
Qed.

(** C10.  [update_stock] leaves every row with another id as it was, in the
    same order; with shares > 0 no row is added or removed and the ticker
    (and the id) of every row, the addressed one included, is unchanged. *)
Theorem update_stock_frame
  (t : Store.table) (id0 : Z) (account0 : string) (shares0 cost_basis0 : Q) :
  let t' := Store.update_stock id0 account0 shares0 cost_basis0 t in
  filter (fun r => negb (Store.id r =? id0)%Z) t'
  = filter (fun r => negb (Store.id r =? id0)%Z) t
  /\ (0 < shares0 ->
      map Store.ticker t' = map Store.ticker t
      /\ map Store.id t' = map Store.id t).
Proof.
  intro t'. subst t'. unfold Store.update_stock. split.
  - destruct (Qltb 0 shares0).
    + apply sql_update_others.
    + apply sql_delete_others.
  - intro Hlt. apply Qltb_lt in Hlt. rewrite Hlt. split.
    + apply sql_update_tickers.
    + apply sql_update_ids.
Qed.

Lemma update_stock_deletes_or_updates_witness :
  (exists db' portfolio,
     Sqlite.update_stock 2 "HSA" 0 (1 # 1) legacy_db = Sqlite.Done db'
     /\ Sqlite.load_portfolio db' = Sqlite.Done portfolio
     /\ ~ In 2%Z (map Store.id portfolio))
  /\ (exists db' portfolio,
        Sqlite.update_stock 2 "HSA" 7 (1 # 1) sample_db = Sqlite.Done db'
        /\ Sqlite.load_portfolio db' = Sqlite.Done portfolio
        /\ In 2%Z (map Store.id portfolio)
        /\ forall r, In r portfolio -> Store.id r = 2%Z ->
             Store.account r = "HSA"%string
             /\ Store.shares r = 7 /\ Store.cost_basis r = 1 # 1).
Proof.
  split.
  - apply (update_stock_deletes_or_updates
             (Sqlite.mkTable false
                [ Store.mkStock 1 "MSFT" "" 10 (100 # 1);
                  Store.mkStock 2 "AAPL" "" (5 # 2) (200 # 1) ] 2)
             2 "HSA" 0 (1 # 1)).
    + simpl. auto.
    + unfold Qle. simpl. lia.
  - apply (update_stock_deletes_or_updates
             (Sqlite.mkTable true sample_table 3) 2 "HSA" 7 (1 # 1)).
    + simpl. auto.
    + unfold Qlt. simpl. lia.
    + reflexivity.
Defined.

Lemma update_stock_frame_witness :
  map Store.ticker (Store.update_stock 2 "HSA" 7 (1 # 1) sample_table)
  = ["MSFT"; "AAPL"; "KO"]%string.
Proof.
  apply (update_stock_frame sample_table 2 "HSA" 7 (1 # 1)).
  unfold Qlt. simpl. lia.
Defined.

(** ** Valuation: the portfolio total *)

Lemma fold_fadd_Fin (l : list Q) (acc : Q) :
  fold_left fadd (map Fin l) (Fin acc) = Fin (fold_left Qplus l acc).
Proof.
  revert acc. induction l as [|x l IH]; intro acc; simpl; [reflexivity|].
  apply IH.
Qed.

Lemma fold_Qplus_Qsum (l : list Q) (acc : Q) :
  fold_left Qplus l acc == acc + Qsum l.
Proof.
  revert acc. induction l as [|x l IH]; intro acc; simpl.
  - ring.
  - rewrite IH. ring.
Qed.

Lemma priced_total_value (yf : Valuation.provider) (r : Store.stock) (v : Q) :
  Valuation.priced yf r = Some v -> Valuation.total_value yf r = Fin v.
Proof.
  unfold Valuation.priced, Valuation.total_value.
  destruct (Valuation.current_price yf r); simpl; congruence.
Qed.

Lemma unpriced_total_value (yf : Valuation.provider) (r : Store.stock) :
  Valuation.current_price yf r = NaN -> Valuation.total_value yf r = NaN.
Proof.
  unfold Valuation.total_value. intros ->. reflexivity.
Qed.

Lemma notna_values (yf : Valuation.provider) (portfolio : Store.table) :
  (forall r, In r portfolio ->
     Valuation.current_price yf r <> PInf
     /\ Valuation.current_price yf r <> NInf) ->
  filter notna (map (Valuation.total_value yf) portfolio)
  = map Fin (Valuation.defined_values yf portfolio).
Proof.
  induction portfolio as [|r rest IH]; intro Hfin; [reflexivity|].
  simpl.
  assert (Hrest : forall r0, In r0 rest ->
            Valuation.current_price yf r0 <> PInf
            /\ Valuation.current_price yf r0 <> NInf)
    by (intros r0 Hin; apply Hfin; right; exact Hin).
  specialize (IH Hrest).
  destruct (Hfin r (or_introl eq_refl)) as [Hp Hn].
  unfold Valuation.priced, Valuation.total_value.
  destruct (Valuation.current_price yf r) eqn:E; simpl.
  - f_equal. exact IH.
  - congruence.
  - congruence.
  - exact IH.
Qed.

(** C6.  A position whose price lookup returns nothing has the market value
    NaN, and the portfolio total skips it: the total is the sum of
    shares times price over the positions that have a price.  (Prices are
    numbers or missing, never infinite.) *)
Theorem total_skips_missing_prices
  (yf : Valuation.provider) (portfolio : Store.table)
  (prices_not_infinite :
     forall r, In r portfolio ->
       Valuation.current_price yf r <> PInf
       /\ Valuation.current_price yf r <> NInf) :
  (forall r, In r portfolio ->
     Valuation.get_current_price yf (Store.ticker r) = None ->
     Valuation.total_value yf r = NaN)
  /\ feq (Valuation.total_portfolio_value yf portfolio)
         (Fin (Qsum (Valuation.defined_values yf portfolio))).
Proof.
  split.
  - intros r _ Hnone. apply unpriced_total_value.
    unfold Valuation.current_price. rewrite Hnone. reflexivity.
  - unfold Valuation.total_portfolio_value, nansum.
    rewrite (notna_values yf portfolio prices_not_infinite).
    rewrite fold_fadd_Fin. simpl.
    rewrite fold_Qplus_Qsum. ring.
Qed.

Lemma total_skips_missing_prices_witness :
  Valuation.total_value sample_provider
    (Store.mkStock 2 "AAPL" "Fidelity" (5 # 2) (200 # 1)) = NaN
  /\ feq (Valuation.total_portfolio_value sample_provider sample_table)
         (Fin (1740 # 1)).
Proof.
  assert (Hfin : forall r, In r sample_table ->
            Valuation.current_price sample_provider r <> PInf
            /\ Valuation.current_price sample_provider r <> NInf).
  { intros r [<-|[<-|[<-|[]]]]; split; discriminate. }
  destruct (total_skips_missing_prices sample_provider sample_table Hfin)
    as [Hmiss Htotal].
  split.
  - apply Hmiss; [simpl; auto | reflexivity].
  - eapply feq_trans; [exact Htotal | reflexivity].
Defined.

(** ** Rounding respects the value of a rational *)

Lemma Qltb_compat (a a' b b' : Q) :
  a == a' -> b == b' -> Qltb a b = Qltb a' b'.
Proof.
  intros Ha Hb.
  destruct (Qltb a b) eqn:E1, (Qltb a' b') eqn:E2; try reflexivity.
  - apply Qltb_lt in E1. apply Qltb_ge in E2.
    rewrite Ha, Hb in E1. exfalso. apply (Qlt_not_le _ _ E1 E2).
  - apply Qltb_lt in E2. apply Qltb_ge in E1.
    rewrite Ha, Hb in E1. exfalso. apply (Qlt_not_le _ _ E2 E1).
Qed.

Lemma round_half_even_compat (q q' : Q) :
  q == q' -> round_half_even q = round_half_even q'.
Proof.
  intro H. unfold round_half_even.
  assert (Hf : Qfloor q = Qfloor q') by (apply Qfloor_comp; exact H).
  rewrite <- Hf.
  assert (Hr : q - inject_Z (Qfloor q) == q' - inject_Z (Qfloor q))
    by (unfold Qminus; apply Qplus_comp; [exact H | reflexivity]).
  rewrite (Qltb_compat _ _ (1 # 2) (1 # 2) Hr (Qeq_refl _)).
  rewrite (Qltb_compat (1 # 2) (1 # 2) _ _ (Qeq_refl _) Hr).
  reflexivity.
Qed.

Lemma round_to_compat (d : positive) (q q' : Q) :
  q == q' -> round_to d q = round_to d q'.
Proof.
  intro H. unfold round_to.
  rewrite (round_half_even_compat (q * inject_Z (10 ^ Z.pos d))
                                  (q' * inject_Z (10 ^ Z.pos d))).
  - reflexivity.
  - apply Qmult_comp; [exact H | reflexivity].
Qed.

(** ** Dividends *)

Section DividendFacts.

Import Dividends.

Variable yf : fundamentals.

Lemma dividend_data_non_payer (row : Store.stock) (rest : Store.table) :
  dividendRate (yf (Store.ticker row)) = None ->
  dividend_data yf (row :: rest) = dividend_data yf rest.
Proof.
  intro H. simpl. unfold get_dividend_info. rewrite H. reflexivity.
Qed.

Lemma dividend_data_payer (row : Store.stock) (rest : Store.table) (rate : Q) :
  dividendRate (yf (Store.ticker row)) = Some rate ->
  dividend_data yf (row :: rest)
  = mkRecord (Store.ticker row) (Store.shares row) rate
      (percent_or_zero (dividendYield (yf (Store.ticker row))))
      (percent_or_zero (payoutRatio (yf (Store.ticker row))))
      (truthy_timestamp (exDividendDate (yf (Store.ticker row))))
      (Store.shares row * rate)
    :: dividend_data yf rest.
Proof.
  intro H. simpl. unfold get_dividend_info. rewrite H. reflexivity.
Qed.

End DividendFacts.

(** C8.  A portfolio of one payer (rate 2.00 a share, 10 shares) and one
    position without a dividend rate, in either order: the total yearly
    dividend income is 20.00, the average yield is the payer's entry of the
    Yield column (its yield in percent, at the two decimals of that column),
    and both figures are those of the payer held alone. *)
Theorem dividends_of_one_payer
  (yf : Dividends.fundamentals) (payer other : Store.stock) (rate : Q)
  (portfolio : Store.table)
  (ten_shares : Store.shares payer == 10)
  (pays : Dividends.dividendRate (yf (Store.ticker payer)) = Some rate)
  (two_a_share : rate == 2)
  (no_rate : Dividends.dividendRate (yf (Store.ticker other)) = None)
  (both : portfolio = [payer; other] \/ portfolio = [other; payer]) :
  Dividends.aggregates yf portfolio = Dividends.aggregates yf [payer]
  /\ match Dividends.aggregates yf portfolio with
     | Some (total, average) =>
         total == 20
         /\ average ==
            Dividends.fmt2
              (Dividends.percent_or_zero
                 (Dividends.dividendYield (yf (Store.ticker payer))))
     | None => False
     end.
Proof.
  assert (Hdata : Dividends.dividend_data yf portfolio
                  = Dividends.dividend_data yf [payer]).
  { destruct both as [-> | ->].
    - rewrite (dividend_data_payer yf payer [other] rate pays).
      rewrite (dividend_data_payer yf payer [] rate pays).
      rewrite (dividend_data_non_payer yf other [] no_rate). reflexivity.
    - rewrite (dividend_data_non_payer yf other [payer] no_rate).
      reflexivity. }
  unfold Dividends.aggregates. rewrite Hdata. split; [reflexivity|].
  rewrite (dividend_data_payer yf payer [] rate pays). simpl.
  unfold Dividends.total_yearly_dividends, Dividends.average_yield,
    Dividends.yield_column, Dividends.fmt2. simpl.
  split.
  - rewrite (round_to_compat 2 (Store.shares payer * rate) 20).
    + vm_compute. reflexivity.
    + rewrite ten_shares, two_a_share. reflexivity.
  - field.
Qed.

Lemma dividends_of_one_payer_witness :
  Dividends.aggregates sample_fundamentals
    [ Store.mkStock 1 "MSFT" "Webull" 3 (100 # 1);
      Store.mkStock 3 "KO" "HSA" 10 (50 # 1) ]
  = Dividends.aggregates sample_fundamentals
      [ Store.mkStock 3 "KO" "HSA" 10 (50 # 1) ].
Proof.
  apply (dividends_of_one_payer sample_fundamentals
           (Store.mkStock 3 "KO" "HSA" 10 (50 # 1))
           (Store.mkStock 1 "MSFT" "Webull" 3 (100 # 1)) 2);
    try reflexivity.
  right. reflexivity.
Defined.

Example dividends_sample_figures :
  Dividends.aggregates sample_fundamentals
    [ Store.mkStock 1 "MSFT" "Webull" 3 (100 # 1);
      Store.mkStock 3 "KO" "HSA" 10 (50 # 1) ]
  = Some (2000 # 100, (123 # 100) / 1).
Proof. vm_compute. reflexivity. Qed.

(** ** The order of the floats *)

Lemma fltb_notna (x y : fl) :
  fltb x y = true -> notna x = true /\ notna y = true.
Proof. destruct x, y; simpl; intro H; auto; discriminate. Qed.

Lemma fltb_asym (x y : fl) : fltb x y = true -> fltb y x = false.
Proof.
  destruct x as [a| | |], y as [b| | |]; simpl; intro H;
    try reflexivity; try discriminate.
  apply Qltb_lt in H. apply Qltb_ge. apply Qlt_le_weak. exact H.
Qed.

Lemma fleb_true (x y : fl) :
  fleb x y = true <->
  notna x = true /\ notna y = true /\ fltb y x = false.
Proof.
  destruct x, y; simpl; rewrite ?negb_true_iff; intuition discriminate.
Qed.

Lemma fleb_trans (x y z : fl) :
  fleb x y = true -> fleb y z = true -> fleb x z = true.
Proof.
  destruct x as [a| | |], y as [b| | |], z as [c| | |]; simpl;
    intros H1 H2; try reflexivity; try discriminate.
  rewrite negb_true_iff in *.
  apply Qltb_ge in H1, H2. apply Qltb_ge.
  eapply Qle_trans; eauto.
Qed.

(** ** The risk ranking *)

Section Ranking.

Import Risk.

Lemma insert_sorted_perm (x : string * fl) (l : list (string * fl)) :
  Permutation (insert_sorted x l) (x :: l).
Proof.
  induction l as [|y l IH]; simpl; [reflexivity|].
  destruct (fltb (snd x) (snd y)); [reflexivity|].
  rewrite IH. apply perm_swap.
Qed.

Lemma fold_insert_perm (l acc : list (string * fl)) :
  Permutation (fold_left (fun sorted x => insert_sorted x sorted) l acc)
              (acc ++ l).
Proof.
  revert acc. induction l as [|x l IH]; intro acc; simpl.
  - rewrite app_nil_r. reflexivity.
  - rewrite IH. rewrite insert_sorted_perm. apply Permutation_middle.
Qed.

Lemma argsort_perm (l : list (string * fl)) : Permutation (argsort l) l.
Proof. unfold argsort. apply (fold_insert_perm l []). Qed.

Lemma split_nan_perm (l : list (string * fl)) :
  Permutation (filter (fun e => notna (snd e)) l
               ++ filter (fun e => is_nan (snd e)) l) l.
Proof.
  induction l as [|x l IH]; simpl; [reflexivity|].
  unfold notna at 1. destruct (is_nan (snd x)); simpl.
  - rewrite <- Permutation_middle. constructor. exact IH.
  - constructor. exact IH.
Qed.

Lemma sort_values_descending_perm (s : list (string * fl)) :
  Permutation (sort_values_descending s) s.
Proof.
  unfold sort_values_descending.
  rewrite <- (split_nan_perm s) at 3.
  apply Permutation_app_tail.
  rewrite <- Permutation_rev. rewrite argsort_perm.
  rewrite <- Permutation_rev. reflexivity.
Qed.

Lemma insert_sorted_hd (x y : string * fl) (l : list (string * fl)) :
  ascends y x -> HdRel ascends y l -> HdRel ascends y (insert_sorted x l).
Proof.
  intros Hyx Hhd. destruct l as [|z l]; simpl.
  - constructor. exact Hyx.
  - destruct (fltb (snd x) (snd z)); constructor.
    + exact Hyx.
    + inversion Hhd. assumption.
Qed.

Lemma insert_sorted_Sorted (x : string * fl) (l : list (string * fl)) :
  notna (snd x) = true ->
  Forall (fun e => notna (snd e) = true) l ->
  Sorted ascends l ->
  Sorted ascends (insert_sorted x l).
Proof.
  intros Hx Hall Hs. induction l as [|y l IH]; simpl.
  - repeat constructor.
  - inversion Hall as [|? ? Hy Hall']; subst.
    inversion Hs as [|? ? Hs' Hhd]; subst.
    destruct (fltb (snd x) (snd y)) eqn:E.
    + constructor; [exact Hs|]. constructor.
      unfold ascends. apply fleb_true. repeat split; auto.
      apply fltb_asym. exact E.
    + constructor; [apply IH; assumption|].
      apply insert_sorted_hd; [|exact Hhd].
      unfold ascends. apply fleb_true. auto.
Qed.

Lemma insert_sorted_notna (x : string * fl) (l : list (string * fl)) :
  notna (snd x) = true ->
  Forall (fun e => notna (snd e) = true) l ->
  Forall (fun e => notna (snd e) = true) (insert_sorted x l).
Proof.
  intros Hx Hall.
  apply (Permutation_Forall (Permutation_sym (insert_sorted_perm x l))).
  constructor; assumption.
Qed.

Lemma fold_insert_Sorted (l acc : list (string * fl)) :
  Forall (fun e => notna (snd e) = true) l ->
  Forall (fun e => notna (snd e) = true) acc ->
  Sorted ascends acc ->
  Sorted ascends (fold_left (fun sorted x => insert_sorted x sorted) l acc).
Proof.
  revert acc. induction l as [|x l IH]; intros acc Hl Hacc Hs; simpl.
  - exact Hs.
  - inversion Hl; subst. apply IH; auto.
    + apply insert_sorted_notna; assumption.
    + apply insert_sorted_Sorted; assumption.
Qed.

Lemma ascends_trans : Relations_1.Transitive ascends.
Proof. intros a b c. unfold ascends. apply fleb_trans. Qed.

Lemma argsort_StronglySorted (l : list (string * fl)) :
  Forall (fun e => notna (snd e) = true) l ->
  StronglySorted ascends (argsort l).
Proof.
  intro Hl. apply Sorted_StronglySorted; [exact ascends_trans|].
  unfold argsort. apply fold_insert_Sorted; auto.
Qed.

Lemma StronglySorted_app {A : Type} (R : A -> A -> Prop) (l1 l2 : list A) :
  StronglySorted R l1 -> StronglySorted R l2 ->
  (forall a b, In a l1 -> In b l2 -> R a b) ->
  StronglySorted R (l1 ++ l2).
Proof.
  intros H1 H2 Hcross. induction H1 as [|a l1 H1 IH Ha]; simpl.
  - exact H2.
  - constructor.
    + apply IH. intros x y Hx Hy. apply Hcross; [right|]; assumption.
    + apply Forall_app. split; [exact Ha|].
      apply Forall_forall. intros y Hy. apply Hcross; [left; reflexivity|exact Hy].
Qed.

Lemma descending_rev (l : list (string * fl)) :
  StronglySorted ascends l -> StronglySorted ranks_before (rev l).
Proof.
  intro Hs. induction Hs as [|a l Hs IH Ha]; simpl.
  - constructor.
  - apply StronglySorted_app; [exact IH | repeat constructor |].
    intros b c Hb [<-|[]]. right.
    rewrite Forall_forall in Ha. apply Ha. apply in_rev. exact Hb.
Qed.

Lemma nans_ranked (nans : list (string * fl)) :
  Forall (fun e => is_nan (snd e) = true) nans ->
  StronglySorted ranks_before nans.
Proof.
  intro Hn. induction Hn as [|b nans Hb Hn IH]; constructor; auto.
  apply Forall_forall. intros c Hc. left.
  rewrite Forall_forall in Hn. apply Hn. exact Hc.
Qed.

Lemma descending_rev_app (l nans : list (string * fl)) :
  StronglySorted ascends l ->
  Forall (fun e => is_nan (snd e) = true) nans ->
  StronglySorted ranks_before (rev l ++ nans).
Proof.
  intros Hs Hn. apply StronglySorted_app.
  - apply descending_rev. exact Hs.
  - apply nans_ranked. exact Hn.
  - intros a b _ Hb. left. rewrite Forall_forall in Hn. apply Hn. exact Hb.
Qed.

Lemma sort_values_descending_sorted (s : list (string * fl)) :
  StronglySorted ranks_before (sort_values_descending s).
Proof.
  unfold sort_values_descending. apply descending_rev_app.
  - apply argsort_StronglySorted.
    apply Forall_forall. intros e He. apply in_rev in He.
    apply filter_In in He. tauto.
  - apply Forall_forall. intros e He. apply filter_In in He. tauto.
Qed.

End Ranking.

(** C7 (amended).  The risk ranking is the input reordered, in descending
    order of annualized volatility with the NaN volatilities last: the sort
    compares the volatilities only, and no order by ticker is imposed on
    assets of equal volatility. *)
Theorem risk_ranking_descending (individual : list (string * fl)) :
  Permutation (Risk.sorted_risks individual) individual
  /\ StronglySorted ranks_before (Risk.sorted_risks individual).
Proof.
  unfold Risk.sorted_risks. split.
  - apply sort_values_descending_perm.
  - apply sort_values_descending_sorted.
Qed.

(** C7 as stated fails: two assets of equal volatility stay in table order,
    here ZZZ before AAA. *)
Lemma risk_ranking_ties_not_alphabetical :
  Risk.sorted_risks tied_risks = tied_risks
  /\ ~ ties_alphabetical (Risk.sorted_risks tied_risks).
Proof.
  split; [reflexivity|].
  intro H.
  specialize (H [] ("ZZZ"%string, Fin (3 # 10)) []
                ("AAA"%string, Fin (3 # 10)) [] eq_refl).
  simpl in H. specialize (H (Qeq_refl _)). discriminate H.
Qed.

(** ** Back-fill and returns *)

Lemma bfill_length (s : list fl) : List.length (bfill s) = List.length s.
Proof. induction s as [|x s IH]; simpl; congruence. Qed.

Lemma bfill_hd (s : list fl) : hd NaN (bfill s) = first_valid s.
Proof.
  induction s as [|x s IH]; simpl; [reflexivity|].
  destruct (is_nan x); [exact IH | reflexivity].
Qed.

(** After the back-fill a cell holds the first value found from its row
    downwards, and stays NaN when there is none. *)
Lemma bfill_cell (s : list fl) (i : nat) :
  (i < List.length s)%nat ->
  cell (bfill s) i = first_valid (skipn i s).
Proof.
  revert i. induction s as [|x s IH]; intros i Hi; simpl in Hi; [lia|].
  destruct i as [|i].
  - unfold cell. simpl. rewrite bfill_hd. reflexivity.
  - unfold cell in *. simpl. apply IH. lia.
Qed.

Lemma ffill_from_length (last : fl) (s : list fl) :
  List.length (ffill_from last s) = List.length s.
Proof.
  revert last. induction s as [|x s IH]; intro last; simpl; [reflexivity|].
  rewrite IH. reflexivity.
Qed.

Lemma removelast_cons_length (x : fl) (s : list fl) :
  List.length (removelast (x :: s)) = List.length s.
Proof.
  revert x. induction s as [|y s IH]; intro x; [reflexivity|].
  change (removelast (x :: y :: s)) with (x :: removelast (y :: s)).
  cbn [List.length]. rewrite IH. reflexivity.
Qed.

Lemma shift_length (s : list fl) : List.length (shift s) = List.length s.
Proof.
  destruct s as [|x s]; [reflexivity|].
  unfold shift. cbn [List.length]. rewrite removelast_cons_length. reflexivity.
Qed.

Lemma pct_change_length (pad : bool) (s : list fl) :
  List.length (pct_change pad s) = List.length s.
Proof.
  unfold pct_change. rewrite length_map, length_combine, shift_length.
  rewrite Nat.min_id. destruct pad; [apply ffill_from_length | reflexivity].
Qed.

Lemma map_columns_nth (f : list fl -> list fl) (df : DataFrame) (k : nat)
  (t : string) (c : list fl) :
  nth_error (columns df) k = Some (t, c) ->
  nth_error (columns (map_columns f df)) k = Some (t, f c).
Proof.
  intro H. unfold map_columns. simpl.
  rewrite nth_error_map, H. reflexivity.
Qed.

Lemma map_columns_names (f : list fl -> list fl) (df : DataFrame) :
  map fst (columns (map_columns f df)) = map fst (columns df).
Proof.
  unfold map_columns. simpl. rewrite map_map. reflexivity.
Qed.

(** C5 (amended).  Each column is filled backward: a cell takes the first
    price observed at its date or later, and stays missing when its column
    has none from there on.  Returns are computed on that table as it is:
    no date and no column is dropped, the return table has the index, the
    column names and the column lengths of the price table. *)
Theorem backfill_then_returns (pad : bool) (df_prices : DataFrame) :
  let filled := Risk.df_prices_filled df_prices in
  let returns := Risk.returns_df pad df_prices in
  (forall k t c,
      nth_error (columns df_prices) k = Some (t, c) ->
      exists c',
        nth_error (columns filled) k = Some (t, c')
        /\ List.length c' = List.length c
        /\ forall i, (i < List.length c)%nat ->
             cell c' i = first_valid (skipn i c))
  /\ returns = map_columns (pct_change pad) filled
  /\ index returns = index df_prices
  /\ map fst (columns returns) = map fst (columns df_prices)
  /\ (forall k t c,
        nth_error (columns df_prices) k = Some (t, c) ->
        exists r,
          nth_error (columns returns) k = Some (t, r)
          /\ List.length r = List.length c).
Proof.
  intros filled returns. subst filled returns.
  unfold Risk.returns_df, Risk.df_prices_filled.
  split; [|split; [|split; [|split]]].
  - intros k t c Hk. exists (bfill c). split; [|split].
    + apply map_columns_nth. exact Hk.
    + apply bfill_length.
    + intros i Hi. apply bfill_cell. exact Hi.
  - reflexivity.
  - reflexivity.
  - rewrite !map_columns_names. reflexivity.
  - intros k t c Hk. exists (pct_change pad (bfill c)). split.
    + apply map_columns_nth, map_columns_nth. exact Hk.
    + rewrite pct_change_length. apply bfill_length.
Qed.

(** C5 as stated fails: AAA has no price on or after the first date, the
    cell stays missing, and the date is still in the return table. *)
Lemma leading_missing_date_not_dropped :
  ~ missing_dates_dropped true unlisted_prices
  /\ ~ missing_dates_dropped false unlisted_prices.
Proof.
  split; intro H;
    specialize (H 0%nat 20240102%Z "AAA"%string [NaN; NaN] eq_refl);
    assert (Hnan : is_nan (cell [NaN; NaN] 0) = false)
      by (apply H; simpl; left; reflexivity);
    discriminate Hnan.
Qed.

Example backfill_sample :
  bfill [NaN; Fin (10 # 1); NaN; NaN; Fin (12 # 1); NaN]
  = [Fin (10 # 1); Fin (10 # 1); Fin (12 # 1); Fin (12 # 1); Fin (12 # 1); NaN].
Proof. reflexivity. Qed.

(** ** The reconstructed portfolio value *)

Section TotalValue.

Import Analysis.

Lemma multiply_by_shares_columns (shares : list (string * Q)) (df : DataFrame) :
  multiply_by_shares shares df
  = mkFrame (index df) (map (scale_by shares) (columns df)).
Proof.
  revert df. induction shares as [|row shares IH]; intro df.
  - unfold multiply_by_shares, scale_by. simpl.
    rewrite map_id. destruct df; reflexivity.
  - unfold multiply_by_shares in *. simpl. rewrite IH.
    unfold scale_column. simpl. rewrite map_map. reflexivity.
Qed.

(** The prices of the first column never reach ['Total Value']. *)
Lemma total_value_ignores_first_column
  (shares : list (string * Q)) (dates : list Z) (t : string)
  (c c' : list fl) (others : list (string * list fl)) :
  total_value shares (mkFrame dates ((t, c) :: others))
  = total_value shares (mkFrame dates ((t, c') :: others)).
Proof.
  unfold total_value, iloc_columns_from_1.
  rewrite !multiply_by_shares_columns. reflexivity.
Qed.

End TotalValue.

(** C1 fails on the code: with AAA (2 shares at 10, 11) and BBB (3 shares
    at 20, 21) the value by the specification is 80, 85, and the code's
    ['Total Value'] is 60, 63: the column of AAA, the first one, is left
    out of the sum. *)
Theorem total_value_omits_first_ticker :
  Forall2 feq (Analysis.portfolio_value two_shares two_prices)
              [Fin (80 # 1); Fin (85 # 1)]
  /\ Forall2 feq (Analysis.total_value two_shares two_prices)
                 [Fin (60 # 1); Fin (63 # 1)]
  /\ ~ Forall2 feq (Analysis.total_value two_shares two_prices)
                   (Analysis.portfolio_value two_shares two_prices).
Proof.
  split; [|split].
  - vm_compute. repeat constructor.
  - vm_compute. repeat constructor.
  - vm_compute. intro H. inversion H as [|? ? ? ? Hhd _]; subst.
    vm_compute in Hhd. discriminate Hhd.
Qed.

(** ** Columns of finite values *)

Lemma notna_Fin (qs : list Q) : filter notna (map Fin qs) = map Fin qs.
Proof. induction qs as [|q qs IH]; simpl; congruence. Qed.

Lemma nansum_Fin (qs : list Q) :
  nansum (map Fin qs) = Fin (fold_left Qplus qs 0).
Proof. unfold nansum. rewrite notna_Fin. apply fold_fadd_Fin. Qed.

Lemma count_Fin (qs : list Q) : count (map Fin qs) = List.length qs.
Proof. unfold count. rewrite notna_Fin. apply length_map. Qed.

Lemma Qsum_zero (qs : list Q) : Forall (fun q => q == 0) qs -> Qsum qs == 0.
Proof.
  intro H. induction H as [|q qs Hq _ IH]; simpl; [reflexivity|].
  rewrite Hq, IH. reflexivity.
Qed.

Lemma Qzerob_of_nat (n : nat) :
  n <> 0%nat -> Qzerob (inject_Z (Z.of_nat n)) = false.
Proof. intro H. unfold Qzerob. simpl. apply Z.eqb_neq. lia. Qed.

Lemma Qzerob_false (q : Q) : Qzerob q = false <-> ~ q == 0.
Proof.
  rewrite <- Qzerob_eq. destruct (Qzerob q); split; congruence.
Qed.

Lemma fdiv_Fin (a b : Q) :
  Qzerob b = false -> fdiv (Fin a) (Fin b) = Fin (a / b).
Proof. intro H. simpl. rewrite H. reflexivity. Qed.

Lemma fdiv_zero_zero (a b : Q) :
  a == 0 -> b == 0 -> fdiv (Fin a) (Fin b) = NaN.
Proof.
  intros Ha Hb. simpl. unfold inf_times.
  apply Qzerob_eq in Ha, Hb. rewrite Ha, Hb. reflexivity.
Qed.

(** ** The Sharpe ratio of a portfolio that does not move *)

Section SharpeOfZeroReturns.

Variable sqrtQ : Q -> Q.

Hypothesis sqrtQ_zero : forall q, 0 <= q -> (sqrtQ q == 0 <-> q == 0).

Lemma nanmean_zeros (qs : list Q) :
  qs <> [] -> Forall (fun q => q == 0) qs ->
  exists m, nanmean (map Fin qs) = Fin m /\ m == 0.
Proof.
  intros Hne Hz. unfold nanmean. rewrite count_Fin.
  destruct (List.length qs =? 0)%nat eqn:E.
  - apply Nat.eqb_eq, length_zero_iff_nil in E. contradiction.
  - apply Nat.eqb_neq in E. rewrite nansum_Fin. unfold of_nat.
    rewrite fdiv_Fin by (apply Qzerob_of_nat; exact E).
    eexists. split; [reflexivity|].
    rewrite fold_Qplus_Qsum, (Qsum_zero qs Hz).
    unfold Qdiv. ring.
Qed.

Lemma squares_of_zeros (m : Q) (qs : list Q) :
  m == 0 -> Forall (fun q => q == 0) qs ->
  Forall (fun q => q == 0) (map (fun q => (m + - q) * (m + - q)) qs).
Proof.
  intros Hm Hz. induction Hz as [|q qs Hq _ IH]; simpl; constructor; auto.
  rewrite Hm, Hq. ring.
Qed.

Lemma nanstd_zeros (qs : list Q) :
  (2 <= List.length qs)%nat -> Forall (fun q => q == 0) qs ->
  exists s, nanstd sqrtQ (map Fin qs) = Fin s /\ s == 0.
Proof.
  intros Hlen Hz. unfold nanstd, nanvar. rewrite notna_Fin, length_map.
  destruct (List.length qs <=? 1)%nat eqn:E;
    [apply Nat.leb_le in E; lia|].
  rewrite nansum_Fin. unfold of_nat.
  rewrite fdiv_Fin by (apply Qzerob_of_nat; lia).
  set (m := fold_left Qplus qs 0 / inject_Z (Z.of_nat (List.length qs))).
  assert (Hm : m == 0).
  { unfold m. rewrite fold_Qplus_Qsum, (Qsum_zero qs Hz).
    unfold Qdiv. ring. }
  rewrite map_map. simpl.
  rewrite <- (map_map (fun q => (m + - q) * (m + - q)) Fin).
  rewrite fold_fadd_Fin.
  rewrite fdiv_Fin by (apply Qzerob_of_nat; lia).
  set (w := fold_left Qplus _ 0 / _).
  assert (Hw : w == 0).
  { unfold w. rewrite fold_Qplus_Qsum.
    rewrite (Qsum_zero _ (squares_of_zeros m qs Hm Hz)).
    unfold Qdiv. ring. }
  simpl. destruct (Qltb w 0) eqn:Hneg.
  - apply Qltb_lt in Hneg. rewrite Hw in Hneg.
    exfalso. apply (Qlt_irrefl _ Hneg).
  - eexists. split; [reflexivity|].
    apply sqrtQ_zero; [rewrite Hw; apply Qle_refl | exact Hw].
Qed.

(** Returns that are all zero have a NaN Sharpe ratio: the mean is zero
    and the standard deviation is zero, or NaN below two rows. *)
Lemma sharpe_of_zero_returns (qs : list Q) :
  Forall (fun q => q == 0) qs ->
  fround 3 (fmul (fdiv (nanmean (map Fin qs)) (nanstd sqrtQ (map Fin qs)))
                 (fsqrt sqrtQ (Fin 250))) = NaN.
Proof.
  intro Hz.
  assert (Hdiv : fdiv (nanmean (map Fin qs)) (nanstd sqrtQ (map Fin qs)) = NaN).
  { destruct qs as [|q0 qs'] eqn:Eq.
    - reflexivity.
    - rewrite <- Eq in *.
      assert (Hne : qs <> []) by (rewrite Eq; discriminate).
      destruct (nanmean_zeros qs Hne Hz) as [m [-> Hm]].
      destruct (le_lt_dec 2 (List.length qs)) as [Hlen|Hlen].
      + destruct (nanstd_zeros qs Hlen Hz) as [s [-> Hs]].
        apply fdiv_zero_zero; assumption.
      + unfold nanstd, nanvar. rewrite notna_Fin, length_map.
        destruct (List.length qs <=? 1)%nat eqn:E;
          [reflexivity | apply Nat.leb_gt in E; lia]. }
  rewrite Hdiv. reflexivity.
Qed.

End SharpeOfZeroReturns.

(** ** The return column of a constant value *)

Lemma ffill_from_repeat (last v : fl) (n : nat) :
  ffill_from last (repeat v n) = repeat (if is_nan v then last else v) n.
Proof.
  revert last. induction n as [|n IH]; intro last; simpl; [reflexivity|].
  rewrite IH. destruct (is_nan v); reflexivity.
Qed.

Lemma ffill_repeat (v : fl) (n : nat) : ffill (repeat v n) = repeat v n.
Proof.
  unfold ffill. rewrite ffill_from_repeat.
  destruct v; reflexivity.
Qed.

Lemma removelast_repeat (v : fl) (n : nat) :
  removelast (repeat v (S n)) = repeat v n.
Proof.
  induction n as [|n IH]; [reflexivity|].
  change (repeat v (S (S n))) with (v :: repeat v (S n)).
  change (removelast (v :: repeat v (S n)))
    with (v :: removelast (repeat v (S n))).
  rewrite IH. reflexivity.
Qed.

Lemma combine_repeat (v w : fl) (n : nat) :
  combine (repeat v n) (repeat w n) = repeat (v, w) n.
Proof. induction n as [|n IH]; simpl; congruence. Qed.

(** The percent change of a value against itself, NaN filled with 0, times
    100: a finite zero whatever the value. *)
Lemma own_change_zero (v : fl) :
  exists q,
    fmul (if is_nan (fsub (fdiv v v) (Fin 1)) then Fin 0
          else fsub (fdiv v v) (Fin 1)) (Fin 100) = Fin q
    /\ q == 0.
Proof.
  destruct v as [a| | |]; simpl;
    try (exists (0 * 100); split; [reflexivity | ring]).
  destruct (Qzerob a) eqn:E.
  - unfold inf_times. rewrite E. simpl.
    exists (0 * 100). split; [reflexivity | ring].
  - simpl. eexists. split; [reflexivity|].
    apply Qzerob_false in E. field. exact E.
Qed.

Lemma return_column_constant (pad : bool) (v : fl) (n : nat) :
  exists qs,
    Analysis.return_column pad (repeat v n) = map Fin qs
    /\ Forall (fun q => q == 0) qs.
Proof.
  destruct n as [|n].
  - exists []. split; [destruct pad; reflexivity | constructor].
  - unfold Analysis.return_column, pct_change.
    assert (Hdata : (if pad then ffill (repeat v (S n)) else repeat v (S n))
                    = repeat v (S n))
      by (destruct pad; [apply ffill_repeat | reflexivity]).
    rewrite Hdata.
    unfold shift. change (repeat v (S n)) with (v :: repeat v n) at 1 2.
    rewrite removelast_repeat.
    cbn [combine map fst snd]. rewrite combine_repeat.
    destruct (own_change_zero v) as [q [Hq Hz]].
    exists (0 * 100 :: repeat q n). split.
    + unfold fillna0. cbn [map].
      assert (Hfirst : fsub (fdiv v NaN) (Fin 1) = NaN)
        by (destruct v; reflexivity).
      rewrite Hfirst. cbn [is_nan fmul]. f_equal.
      rewrite !map_repeat. cbn [fst snd]. rewrite Hq. reflexivity.
    + constructor; [ring|].
      apply Forall_forall. intros x Hx.
      apply repeat_spec in Hx. subst x. exact Hz.
Qed.

(** ** A finite result needs finite operands *)

Lemma fadd_finite (x y : fl) :
  is_finite (fadd x y) = true -> is_finite x = true /\ is_finite y = true.
Proof. destruct x, y; simpl; auto. Qed.

Lemma fopp_finite (x : fl) : is_finite (fopp x) = true -> is_finite x = true.
Proof. destruct x; simpl; auto. Qed.

Lemma inf_times_not_finite (q : Q) : is_finite (inf_times q) = false.
Proof. unfold inf_times. destruct (Qzerob q), (Qposb q); reflexivity. Qed.

Lemma fmul_finite (x y : fl) :
  is_finite (fmul x y) = true -> is_finite x = true /\ is_finite y = true.
Proof.
  destruct x as [a| | |], y as [b| | |]; simpl; auto;
    try (rewrite inf_times_not_finite; discriminate);
    try (destruct (inf_times a) eqn:E; simpl; try discriminate;
         pose proof (inf_times_not_finite a) as H; rewrite E in H;
         discriminate);
    try (destruct (inf_times b) eqn:E; simpl; try discriminate;
         pose proof (inf_times_not_finite b) as H; rewrite E in H;
         discriminate).
Qed.

Lemma fdiv_finite (x : fl) (b : Q) :
  is_finite (fdiv x (Fin b)) = true -> is_finite x = true.
Proof.
  destruct x; simpl; auto; destruct (Qltb b 0); discriminate.
Qed.

Lemma fold_fadd_finite (l : list fl) (acc : fl) :
  is_finite (fold_left fadd l acc) = true ->
  is_finite acc = true /\ Forall (fun x => is_finite x = true) l.
Proof.
  revert acc. induction l as [|x l IH]; intros acc H; simpl in H.
  - split; [exact H | constructor].
  - destruct (IH _ H) as [Hacc Hl].
    apply fadd_finite in Hacc. destruct Hacc as [Ha Hx].
    split; [exact Ha | constructor; assumption].
Qed.

Lemma finite_values (l : list fl) :
  Forall (fun x => is_finite x = true) l -> exists qs, l = map Fin qs.
Proof.
  intro H. induction H as [|x l Hx _ [qs ->]].
  - exists []. reflexivity.
  - destruct x as [q| | |]; try discriminate.
    exists (q :: qs). reflexivity.
Qed.

(** A finite variance comes from two finite values at least. *)
Lemma nanvar_finite (l : list fl) :
  is_finite (nanvar l) = true ->
  (2 <= List.length (filter notna l))%nat
  /\ exists qs, filter notna l = map Fin qs.
Proof.
  unfold nanvar.
  destruct (List.length (filter notna l) <=? 1)%nat eqn:E;
    [discriminate|].
  apply Nat.leb_gt in E. intro H. split; [lia|].
  unfold of_nat in H. apply fdiv_finite in H.
  apply fold_fadd_finite in H. destruct H as [_ H].
  apply finite_values.
  rewrite Forall_map in H.
  eapply Forall_impl; [|exact H].
  intros x Hx. cbv beta in Hx.
  apply fmul_finite in Hx. destruct Hx as [Hx _].
  apply fadd_finite in Hx. destruct Hx as [_ Hx].
  apply fopp_finite. exact Hx.
Qed.

Lemma nanvar_Fin (qs : list Q) :
  (2 <= List.length qs)%nat -> nanvar (map Fin qs) = Fin (varQ qs).
Proof.
  intro Hlen. unfold nanvar. rewrite notna_Fin, length_map.
  destruct (List.length qs <=? 1)%nat eqn:E;
    [apply Nat.leb_le in E; lia|].
  rewrite nansum_Fin. unfold of_nat.
  rewrite fdiv_Fin by (apply Qzerob_of_nat; lia).
  rewrite map_map. simpl.
  rewrite <- (map_map (fun q => (_ + - q) * (_ + - q)) Fin).
  rewrite fold_fadd_Fin.
  rewrite fdiv_Fin by (apply Qzerob_of_nat; lia).
  reflexivity.
Qed.

Lemma Qsquare_nonneg (a : Q) : 0 <= a * a.
Proof.
  unfold Qle, Qmult. simpl. rewrite Z.mul_1_r. apply Z.square_nonneg.
Qed.

Lemma Qsum_squares_nonneg (m : Q) (qs : list Q) :
  0 <= Qsum (map (fun q => (m + - q) * (m + - q)) qs).
Proof.
  induction qs as [|q qs IH]; simpl; [apply Qle_refl|].
  pose proof (Qsquare_nonneg (m + - q)) as Hsq0.
  lra.
Qed.

Lemma Qsum_squares_zero (m : Q) (qs : list Q) :
  Qsum (map (fun q => (m + - q) * (m + - q)) qs) == 0 ->
  Forall (fun q => q == m) qs.
Proof.
  induction qs as [|q qs IH]; simpl; intro H; constructor.
  - pose proof (Qsum_squares_nonneg m qs) as Hrest.
    pose proof (Qsquare_nonneg (m + - q)) as Hsq0.
    assert (Hsq : (m + - q) * (m + - q) == 0) by lra.
    apply Qmult_integral in Hsq. lra.
  - apply IH.
    pose proof (Qsum_squares_nonneg m qs) as Hrest.
    pose proof (Qsquare_nonneg (m + - q)) as Hsq0.
    lra.
Qed.

Lemma varQ_zero (qs : list Q) (q0 : Q) :
  (2 <= List.length qs)%nat -> varQ qs == 0 -> In q0 qs ->
  Forall (fun q => q == q0) qs.
Proof.
  intros Hlen Hvar Hin. unfold varQ in Hvar.
  set (m := fold_left Qplus qs 0 / _) in Hvar.
  rewrite fold_Qplus_Qsum in Hvar.
  assert (Hpos : 0 < inject_Z (Z.of_nat (List.length qs - 1))).
  { unfold Qlt. simpl. lia. }
  assert (Hsum : Qsum (map (fun q => (m + - q) * (m + - q)) qs) == 0).
  { assert (Hne : ~ inject_Z (Z.of_nat (List.length qs - 1)) == 0) by lra.
    setoid_replace (Qsum (map (fun q => (m + - q) * (m + - q)) qs))
      with ((0 + Qsum (map (fun q => (m + - q) * (m + - q)) qs))
            / inject_Z (Z.of_nat (List.length qs - 1))
            * inject_Z (Z.of_nat (List.length qs - 1)))
      by (field; exact Hne).
    rewrite Hvar. ring. }
  pose proof (Qsum_squares_zero m qs Hsum) as Hall.
  rewrite Forall_forall in Hall.
  apply Forall_forall. intros q Hq.
  rewrite (Hall q Hq), (Hall q0 Hin). reflexivity.
Qed.

(** ** The return column in general *)

Lemma return_cell_notna (y : fl) :
  notna (fmul (if is_nan y then Fin 0 else y) (Fin 100)) = true.
Proof. destruct y; reflexivity. Qed.

Lemma return_column_notna (pad : bool) (total : list fl) :
  filter notna (Analysis.return_column pad total)
  = Analysis.return_column pad total.
Proof.
  unfold Analysis.return_column, fillna0. rewrite map_map.
  induction (pct_change pad total) as [|y l IH]; [reflexivity|].
  cbn [map filter]. rewrite return_cell_notna, IH. reflexivity.
Qed.

(** The first return is the filled one: zero. *)
Lemma return_column_head (pad : bool) (total : list fl) :
  total <> [] ->
  exists rest, Analysis.return_column pad total = Fin (0 * 100) :: rest.
Proof.
  intro Hne. destruct total as [|t ts]; [contradiction|].
  unfold Analysis.return_column, pct_change, fillna0.
  destruct pad.
  - unfold ffill. cbn [ffill_from shift combine map fst snd].
    destruct (if is_nan t then NaN else t); eexists; reflexivity.
  - cbn [shift combine map fst snd].
    destruct t; eexists; reflexivity.
Qed.

Lemma return_column_nil (pad : bool) : Analysis.return_column pad [] = [].
Proof. destruct pad; reflexivity. Qed.

Section SharpeOfZeroDeviation.

Variable sqrtQ : Q -> Q.

Hypothesis sqrtQ_zero : forall q, 0 <= q -> (sqrtQ q == 0 <-> q == 0).

Lemma fsqrt_Fin (x : fl) (s : Q) :
  fsqrt sqrtQ x = Fin s ->
  exists w, x = Fin w /\ 0 <= w /\ s = sqrtQ w.
Proof.
  destruct x as [w| | |]; simpl; try discriminate.
  destruct (Qltb w 0) eqn:E; [discriminate|].
  intro H. injection H as <-. exists w.
  apply Qltb_ge in E. auto.
Qed.

(** A return column whose standard deviation is zero holds zeros only. *)
Lemma zero_deviation_zero_returns (pad : bool) (total : list fl) (s : Q) :
  nanstd sqrtQ (Analysis.return_column pad total) = Fin s -> s == 0 ->
  exists qs,
    Analysis.return_column pad total = map Fin qs
    /\ Forall (fun q => q == 0) qs.
Proof.
  intros Hstd Hs. unfold nanstd in Hstd.
  apply fsqrt_Fin in Hstd. destruct Hstd as [w [Hvar [Hw ->]]].
  assert (Hfin : is_finite (nanvar (Analysis.return_column pad total)) = true)
    by (rewrite Hvar; reflexivity).
  apply nanvar_finite in Hfin. destruct Hfin as [Hlen [qs Hqs]].
  rewrite return_column_notna in Hlen, Hqs.
  rewrite Hqs in Hvar, Hlen. rewrite length_map in Hlen.
  rewrite (nanvar_Fin qs Hlen) in Hvar. injection Hvar as Hvar.
  assert (Hzero : varQ qs == 0).
  { rewrite Hvar. apply sqrtQ_zero; assumption. }
  assert (Htotal : total <> []).
  { intros ->. rewrite return_column_nil in Hqs.
    destruct qs; [simpl in Hlen; lia | discriminate]. }
  destruct (return_column_head pad total Htotal) as [rest Hhead].
  rewrite Hhead in Hqs.
  destruct qs as [|q0 qs']; [discriminate|].
  injection Hqs as Hq0 Hrest.
  exists (q0 :: qs'). split.
  - rewrite Hhead, Hq0, Hrest. reflexivity.
  - pose proof (varQ_zero (q0 :: qs') q0 Hlen Hzero (or_introl eq_refl))
      as Hall.
    eapply Forall_impl; [|exact Hall].
    intros q Hq. cbv beta in Hq. rewrite Hq, <- Hq0. ring.
Qed.

End SharpeOfZeroDeviation.

(** C2 (amended).  For a portfolio whose value series is constant, of any
    length, and for any value series whose daily return column has standard
    deviation zero, the portfolio Sharpe ratio is the float NaN: the mean
    return, zero, is divided by the standard deviation, zero (or NaN below
    two rows), and no separate undefined result exists. *)
Theorem sharpe_of_constant_value_is_nan
  (sqrtQ : Q -> Q)
  (sqrtQ_zero : forall q, 0 <= q -> (sqrtQ q == 0 <-> q == 0))
  (pad : bool) :
  (forall (v : fl) (n : nat),
      Analysis.sharpe_ratio sqrtQ pad (repeat v n) = NaN)
  /\ (forall (total : list fl) (s : Q),
        nanstd sqrtQ (Analysis.return_column pad total) = Fin s -> s == 0 ->
        Analysis.sharpe_ratio sqrtQ pad total = NaN).
Proof.
  split.
  - intros v n. unfold Analysis.sharpe_ratio.
    destruct (return_column_constant pad v n) as [qs [-> Hz]].
    apply sharpe_of_zero_returns; assumption.
  - intros total s Hstd Hs. unfold Analysis.sharpe_ratio.
    destruct (zero_deviation_zero_returns sqrtQ sqrtQ_zero pad total s Hstd Hs)
      as [qs [-> Hz]].
    apply sharpe_of_zero_returns; assumption.
Qed.

Lemma sqrt_up_zero (q : Q) : 0 <= q -> (sqrt_up q == 0 <-> q == 0).
Proof.
  intros _. unfold sqrt_up. destruct (Qzerob q) eqn:E.
  - apply Qzerob_eq in E. split; intro; [exact E | reflexivity].
  - apply Qzerob_false in E. split; intro H; [|contradiction].
    exfalso. unfold Qeq in H. cbn [Qnum Qden] in H.
    rewrite Z.mul_0_l, Z.mul_1_r in H.
    pose proof (Z.sqrt_nonneg (Qfloor (q * inject_Z (10 ^ 12)))). lia.
Qed.

Lemma sharpe_of_constant_value_is_nan_witness :
  Analysis.sharpe_ratio sqrt_up true (repeat (Fin (2400 # 1)) 3) = NaN.
Proof.
  apply (sharpe_of_constant_value_is_nan sqrt_up sqrt_up_zero true).
Defined.

(** C2 as stated fails: a value frozen at 2400 over three days gives the
    Sharpe ratio NaN, the artifact of 0 / 0. *)
Lemma sharpe_of_frozen_value_is_artifact :
  Analysis.sharpe_ratio sqrt_up true frozen_value = NaN
  /\ ~ ~ divide_by_zero_artifact
         (Analysis.sharpe_ratio sqrt_up true frozen_value).
Proof.
  assert (H : Analysis.sharpe_ratio sqrt_up true frozen_value = NaN)
    by (vm_compute; reflexivity).
  split; [exact H|].
  intro Hnot. apply Hnot. left. exact H.
Qed.

(** ** The covariance matrix *)

Lemma cov_entry_pairs (xs ys : list fl) :
  Risk.cov_entry xs ys = Risk.cov_of_pairs (Risk.finite_pairs xs ys).
Proof. reflexivity. Qed.

Lemma finite_pairs_swap (xs ys : list fl) :
  Risk.finite_pairs ys xs = map swap (Risk.finite_pairs xs ys).
Proof.
  revert ys. induction xs as [|x xs IH]; intros [|y ys]; try reflexivity.
  simpl. destruct x, y; simpl; rewrite ?IH; reflexivity.
Qed.

Lemma finite_pairs_diag (c : list fl) :
  Risk.finite_pairs c c = map (fun x => (x, x)) (finite_part c).
Proof.
  induction c as [|x c IH]; [reflexivity|].
  simpl. destruct x; simpl; rewrite ?IH; reflexivity.
Qed.

Lemma Qsum_map_ext {A : Type} (f g : A -> Q) (l : list A) :
  (forall a, f a == g a) -> Qsum (map f l) == Qsum (map g l).
Proof.
  intro H. induction l as [|a l IH]; simpl; [reflexivity|].
  rewrite (H a), IH. reflexivity.
Qed.

Lemma cov_of_pairs_swap (ps : list (Q * Q)) :
  feq (Risk.cov_of_pairs (map swap ps)) (Risk.cov_of_pairs ps).
Proof.
  unfold Risk.cov_of_pairs. rewrite length_map.
  destruct (List.length ps <? 1)%nat; [exact I|].
  destruct (List.length ps - 1 =? 0)%nat; [exact I|].
  simpl. rewrite !map_map. simpl.
  apply Qmult_comp; [|reflexivity].
  apply Qsum_map_ext. intro p. apply Qmult_comm.
Qed.

Lemma cov_entry_sym (xs ys : list fl) :
  feq (Risk.cov_entry ys xs) (Risk.cov_entry xs ys).
Proof.
  rewrite !cov_entry_pairs, finite_pairs_swap. apply cov_of_pairs_swap.
Qed.

Lemma cov_entry_diag (c : list fl) :
  feq (Risk.cov_entry c c) (sample_variance c).
Proof.
  rewrite cov_entry_pairs, finite_pairs_diag.
  unfold Risk.cov_of_pairs, sample_variance, meanQ. rewrite length_map.
  destruct (List.length (finite_part c)) as [|[|n]] eqn:E; try exact I.
  cbn [Nat.ltb Nat.leb Nat.sub Nat.eqb].
  simpl. rewrite !map_map. simpl. rewrite map_id.
  apply Qmult_comp; [|reflexivity].
  apply Qsum_map_ext. intro x. reflexivity.
Qed.

(** The entry of [cov] in row [i] and column [j]. *)
Lemma entry_cov (df : DataFrame) (i j : nat) :
  let cols := map snd (columns df) in
  Risk.entry (Risk.cov df) i j
  = if ((i <? List.length cols) && (j <? List.length cols))%nat%bool
    then Risk.cov_entry (nth i cols []) (nth j cols [])
    else NaN.
Proof.
  intro cols. unfold Risk.entry, Risk.cov. fold cols. simpl.
  destruct (i <? List.length cols)%nat eqn:Ei; simpl.
  - apply Nat.ltb_lt in Ei.
    rewrite (nth_indep _ [] (map (fun cj => Risk.cov_entry [] cj) cols))
      by (rewrite length_map; exact Ei).
    rewrite (map_nth (fun ci => map (fun cj => Risk.cov_entry ci cj) cols)).
    destruct (j <? List.length cols)%nat eqn:Ej.
    + apply Nat.ltb_lt in Ej.
      rewrite (nth_indep _ NaN (Risk.cov_entry (nth i cols []) []))
        by (rewrite length_map; exact Ej).
      rewrite (map_nth (fun cj => Risk.cov_entry (nth i cols []) cj)).
      reflexivity.
    + apply Nat.ltb_ge in Ej. apply nth_overflow.
      rewrite length_map. exact Ej.
  - apply Nat.ltb_ge in Ei.
    rewrite (nth_overflow (map _ cols) []) by (rewrite length_map; exact Ei).
    destruct j; reflexivity.
Qed.

(** C4.  The covariance matrix of any return table is symmetric: the
    entries (i, j) and (j, i) hold the same value (a number, or NaN in
    both); the diagonal entry (i, i) is the sample variance, divisor N - 1,
    of the values of column i. *)
Theorem covariance_symmetric_with_variance_diagonal
  (returns : DataFrame) (i j : nat) :
  feq (Risk.entry (Risk.cov returns) i j) (Risk.entry (Risk.cov returns) j i)
  /\ feq (Risk.entry (Risk.cov returns) i i)
         (sample_variance (nth i (map snd (columns returns)) [])).
Proof.
  rewrite !entry_cov. cbv zeta. split.
  - rewrite (andb_comm (j <? _)%nat).
    destruct ((i <? _)%nat && (j <? _)%nat)%bool; [|exact I].
    apply cov_entry_sym.
  - rewrite andb_diag.
    destruct (i <? _)%nat eqn:Ei.
    + apply cov_entry_diag.
    + apply Nat.ltb_ge in Ei. rewrite nth_overflow by exact Ei. exact I.
Qed.

Example covariance_sample :
  Forall2 (Forall2 feq) (Risk.data (Risk.cov sample_returns))
    [ [Fin (4 # 100); Fin (1 # 100)];
      [Fin (1 # 100); Fin (1 # 100)] ].
Proof. vm_compute. repeat constructor. Qed.

(** ** Vectors of rationals *)

Lemma dotQ_nil_r (a : list Q) : dotQ a [] = 0.
Proof. unfold dotQ. rewrite combine_nil. reflexivity. Qed.

Lemma dotQ_cons (x y : Q) (a b : list Q) :
  dotQ (x :: a) (y :: b) = x * y + dotQ a b.
Proof. reflexivity. Qed.

Lemma dotQ_comm (a b : list Q) : dotQ a b == dotQ b a.
Proof.
  revert b. induction a as [|x a IH]; intros [|y b];
    try reflexivity.
  rewrite !dotQ_cons, IH. ring.
Qed.

Lemma dotQ_zero_r (a : list Q) (n : nat) : dotQ a (repeat 0 n) == 0.
Proof.
  revert n. induction a as [|x a IH]; intros [|n]; try reflexivity.
  cbn [repeat]. rewrite dotQ_cons, IH. ring.
Qed.

Lemma dotQ_vscale_r (u a : list Q) (w : Q) :
  dotQ u (vscale w a) == w * dotQ u a.
Proof.
  revert a. induction u as [|x u IH]; intros [|y a];
    try (unfold dotQ; simpl; ring).
  unfold vscale in *. cbn [map]. rewrite !dotQ_cons, IH. ring.
Qed.

Lemma dotQ_vadd_r (u a b : list Q) :
  List.length a = List.length b ->
  dotQ u (vadd a b) == dotQ u a + dotQ u b.
Proof.
  revert a b. induction u as [|x u IH]; intros a b Hlen.
  - unfold dotQ. simpl. ring.
  - destruct a as [|y a], b as [|z b]; try discriminate.
    + unfold vadd, dotQ. simpl. ring.
    + unfold vadd in *. cbn [combine map fst snd].
      rewrite !dotQ_cons, IH by (simpl in Hlen; lia). ring.
Qed.

Lemma dotQ_self_nonneg (v : list Q) : 0 <= dotQ v v.
Proof.
  induction v as [|x v IH]; [apply Qle_refl|].
  rewrite dotQ_cons. pose proof (Qsquare_nonneg x). lra.
Qed.

Lemma vscale_length (w : Q) (a : list Q) :
  List.length (vscale w a) = List.length a.
Proof. apply length_map. Qed.

Lemma vadd_length (a b : list Q) :
  List.length a = List.length b -> List.length (vadd a b) = List.length a.
Proof.
  intro H. unfold vadd. rewrite length_map, length_combine, H.
  apply Nat.min_id.
Qed.

Lemma lincomb_length (n : nat) (ws : list Q) (ds : list (list Q)) :
  Forall (fun d => List.length d = n) ds ->
  List.length (lincomb n ws ds) = n.
Proof.
  intro Hds. revert ws. induction Hds as [|d ds Hd Hds IH]; intros ws.
  - unfold lincomb. rewrite combine_nil. apply repeat_length.
  - destruct ws as [|w ws]; [apply repeat_length|].
    unfold lincomb in *. cbn [combine fold_right fst snd].
    rewrite vadd_length; rewrite vscale_length; [exact Hd|].
    rewrite IH. exact Hd.
Qed.

(** A row of Gram entries against the weights is one product with the
    combination of the vectors. *)
Lemma dotQ_lincomb (n : nat) (c : Q) (u : list Q) (ws : list Q)
  (ds : list (list Q)) :
  Forall (fun d => List.length d = n) ds ->
  dotQ (map (fun d => dotQ u d / c) ds) ws
  == dotQ u (lincomb n ws ds) / c.
Proof.
  intro Hds. revert ws. induction Hds as [|d ds Hd Hds IH]; intros ws.
  - unfold lincomb. rewrite combine_nil. cbn [map fold_right].
    rewrite dotQ_zero_r. unfold dotQ, Qdiv. simpl. ring.
  - destruct ws as [|w ws].
    + unfold lincomb. cbn [combine fold_right].
      rewrite dotQ_nil_r, dotQ_zero_r. unfold Qdiv. ring.
    + unfold lincomb in *. cbn [map combine fold_right fst snd].
      rewrite dotQ_cons, IH.
      rewrite dotQ_vadd_r, dotQ_vscale_r.
      * unfold Qdiv. ring.
      * rewrite vscale_length.
        fold (lincomb n ws ds). rewrite lincomb_length; auto.
Qed.

(** ** Covariance of columns observed on the same rows *)

Lemma finite_pairs_same_rows (c1 c2 : list fl) :
  map is_finite c1 = map is_finite c2 ->
  Risk.finite_pairs c1 c2 = combine (finite_part c1) (finite_part c2)
  /\ List.length (finite_part c1) = List.length (finite_part c2).
Proof.
  revert c2. induction c1 as [|x c1 IH]; intros [|y c2] H;
    try discriminate; [split; reflexivity|].
  simpl in H. injection H as Hxy Hrest.
  destruct (IH c2 Hrest) as [Hp Hl].
  destruct x, y; simpl in *; try discriminate; rewrite ?Hp, ?Hl; auto.
Qed.

Lemma finite_part_length (c : list fl) :
  List.length (finite_part c)
  = List.length (filter (fun b => b) (map is_finite c)).
Proof.
  induction c as [|x c IH]; [reflexivity|].
  destruct x; simpl; rewrite ?IH; reflexivity.
Qed.

Lemma cov_of_pairs_Fin (ps : list (Q * Q)) :
  (2 <= List.length ps)%nat -> Risk.cov_of_pairs ps = Fin (cov_pairs_Q ps).
Proof.
  intro H. unfold Risk.cov_of_pairs.
  destruct (List.length ps <? 1)%nat eqn:E1;
    [apply Nat.ltb_lt in E1; lia|].
  destruct (List.length ps - 1 =? 0)%nat eqn:E2;
    [apply Nat.eqb_eq in E2; lia|].
  reflexivity.
Qed.

Lemma map_fst_combine (xs ys : list Q) :
  List.length xs = List.length ys -> map fst (combine xs ys) = xs.
Proof.
  revert ys. induction xs as [|x xs IH]; intros [|y ys] H;
    try discriminate; [reflexivity|].
  simpl. rewrite IH by (simpl in H; lia). reflexivity.
Qed.

Lemma map_snd_combine (xs ys : list Q) :
  List.length xs = List.length ys -> map snd (combine xs ys) = ys.
Proof.
  revert ys. induction xs as [|x xs IH]; intros [|y ys] H;
    try discriminate; [reflexivity|].
  simpl. rewrite IH by (simpl in H; lia). reflexivity.
Qed.

Lemma centered_products (mx my : Q) (xs ys : list Q) :
  Qsum (map (fun p => (fst p - mx) * (snd p - my)) (combine xs ys))
  == dotQ (map (fun x => x - mx) xs) (map (fun y => y - my) ys).
Proof.
  revert ys. induction xs as [|x xs IH]; intros [|y ys];
    try reflexivity.
  cbn [combine map fst snd]. rewrite dotQ_cons. simpl. rewrite IH.
  reflexivity.
Qed.

Lemma cov_pairs_covQ (xs ys : list Q) :
  List.length xs = List.length ys ->
  cov_pairs_Q (combine xs ys) == covQ xs ys.
Proof.
  intro H. unfold cov_pairs_Q, covQ, center, meanQ.
  rewrite (map_fst_combine xs ys H), (map_snd_combine xs ys H).
  rewrite length_combine, <- H, Nat.min_id.
  apply Qmult_comp; [|reflexivity].
  apply centered_products.
Qed.

Lemma cov_entry_same_rows (c1 c2 : list fl) :
  map is_finite c1 = map is_finite c2 ->
  (2 <= List.length (finite_part c1))%nat ->
  Risk.cov_entry c1 c2
  = Fin (cov_pairs_Q (combine (finite_part c1) (finite_part c2))).
Proof.
  intros Hmask Hlen.
  destruct (finite_pairs_same_rows c1 c2 Hmask) as [Hp Hl].
  rewrite cov_entry_pairs, Hp. apply cov_of_pairs_Fin.
  rewrite length_combine, <- Hl, Nat.min_id. exact Hlen.
Qed.

(** ** Sums of products: the float computation and its rational value *)

Lemma fdot_Fin_acc (a b : list Q) (acc : Q) :
  fold_left fadd
    (map (fun p => fmul (fst p) (snd p)) (combine (map Fin a) (map Fin b)))
    (Fin acc)
  = Fin (fold_left Qplus (map (fun p => fst p * snd p) (combine a b)) acc).
Proof.
  revert b acc. induction a as [|x a IH]; intros [|y b] acc;
    try reflexivity.
  simpl. apply IH.
Qed.

Lemma fdot_Fin (a b : list Q) :
  Risk.fdot (map Fin a) (map Fin b) = Fin (dotL a b).
Proof. apply fdot_Fin_acc. Qed.

Lemma dotL_dotQ (a b : list Q) : dotL a b == dotQ a b.
Proof. unfold dotL, dotQ. rewrite fold_Qplus_Qsum. ring. Qed.

Lemma dotQ_ext_l (a a' b : list Q) :
  Forall2 Qeq a a' -> dotQ a b == dotQ a' b.
Proof.
  intro H. revert b. induction H as [|x x' a a' Hx _ IH]; intros b.
  - reflexivity.
  - destruct b as [|y b]; [rewrite !dotQ_nil_r; reflexivity|].
    rewrite !dotQ_cons, Hx, IH. reflexivity.
Qed.

Lemma dotQ_ext_r (a b b' : list Q) :
  Forall2 Qeq b b' -> dotQ a b == dotQ a b'.
Proof.
  intro H. rewrite (dotQ_comm a b), (dotQ_comm a b').
  apply dotQ_ext_l. exact H.
Qed.

Lemma Forall2_map_in {A : Type} (f g : A -> Q) (l : list A) :
  (forall x, In x l -> f x == g x) -> Forall2 Qeq (map f l) (map g l).
Proof.
  induction l as [|x l IH]; intro H; simpl; constructor.
  - apply H. left. reflexivity.
  - apply IH. intros y Hy. apply H. right. exact Hy.
Qed.

Lemma Qsum_scale {A : Type} (w : Q) (f : A -> Q) (l : list A) :
  w * Qsum (map f l) == Qsum (map (fun x => w * f x) l).
Proof.
  induction l as [|x l IH]; simpl; [ring|].
  rewrite <- IH. ring.
Qed.

Lemma dotQ_rows (outer w : list Q) (S : list (list Q)) :
  dotQ outer (map (fun row => dotQ row w) S)
  == Qsum (map (fun wr =>
                  Qsum (map (fun sw => fst wr * fst sw * snd sw)
                            (combine (snd wr) w)))
               (combine outer S)).
Proof.
  revert S. induction outer as [|wi outer IH]; intro S; [reflexivity|].
  destruct S as [|row S]; [reflexivity|].
  cbn [map combine]. rewrite dotQ_cons. cbn [Qsum map fold_right fst snd].
  apply Qplus_comp; [|apply IH].
  unfold dotQ. rewrite Qsum_scale.
  apply Qsum_map_ext. intro p. ring.
Qed.

(** The code's [w . (S w)] is the double sum of the quadratic form. *)
Lemma dotQ_quadratic_form (w : list Q) (S : list (list Q)) :
  dotQ w (map (fun row => dotQ row w) S) == quadratic_form w S.
Proof. apply dotQ_rows. Qed.

(** ** The quadratic form of a Gram matrix is a square *)

Lemma gram_form_nonneg (n : nat) (c : Q) (ws : list Q) (ds : list (list Q)) :
  0 < c ->
  Forall (fun d => List.length d = n) ds ->
  0 <= dotQ ws (map (fun u => dotQ (map (fun d => dotQ u d / c) ds) ws) ds).
Proof.
  intros Hc Hds.
  set (V := lincomb n ws ds).
  assert (Hrows : Forall2 Qeq
            (map (fun u => dotQ (map (fun d => dotQ u d / c) ds) ws) ds)
            (map (fun u => dotQ V u / c) ds)).
  { apply Forall2_map_in. intros u _.
    rewrite (dotQ_lincomb n c u ws ds Hds). fold V.
    rewrite (dotQ_comm u V). reflexivity. }
  rewrite (dotQ_ext_r ws _ _ Hrows).
  rewrite dotQ_comm, (dotQ_lincomb n c V ws ds Hds). fold V.
  unfold Qdiv. apply Qmult_le_0_compat.
  - apply dotQ_self_nonneg.
  - apply Qinv_le_0_compat. apply Qlt_le_weak. exact Hc.
Qed.

Lemma center_length (xs : list Q) : List.length (center xs) = List.length xs.
Proof. apply length_map. Qed.

(** The quadratic form of a sample covariance matrix is not negative. *)
Lemma covariance_form_nonneg (n : nat) (ws : list Q) (X : list (list Q)) :
  (2 <= n)%nat ->
  Forall (fun xs => List.length xs = n) X ->
  0 <= dotQ ws (map (fun row => dotQ row ws) (sample_covariance_matrix X)).
Proof.
  intros Hn HX. unfold sample_covariance_matrix. rewrite map_map.
  set (c := inject_Z (Z.of_nat (n - 1))).
  assert (Hc : 0 < c) by (unfold c, Qlt; simpl; lia).
  assert (Heq : map (fun xi => dotQ (map (fun xj => covQ xi xj) X) ws) X
                = map (fun u =>
                         dotQ (map (fun d => dotQ u d / c) (map center X)) ws)
                      (map center X)).
  { rewrite map_map. apply map_ext_in. intros xi Hxi.
    f_equal. rewrite map_map. apply map_ext. intro xj.
    unfold covQ, c. rewrite Forall_forall in HX.
    rewrite (HX xi Hxi). reflexivity. }
  rewrite Heq. apply (gram_form_nonneg n c ws (map center X) Hc).
  rewrite Forall_map. eapply Forall_impl; [|exact HX].
  intros xs Hxs. cbv beta in *. rewrite center_length. exact Hxs.
Qed.

(** ** The portfolio variance on columns observed on the same rows *)

Section ObservedReturns.

Variable returns : DataFrame.
Variable ws : list Q.
Variable rows : list bool.

Let cols : list (list fl) := map snd (columns returns).
Let X : list (list Q) := map finite_part cols.
Let n : nat := List.length (filter (fun b => b) rows).

Hypothesis same_rows : Forall (fun c => map is_finite c = rows) cols.
Hypothesis two_rows : (2 <= n)%nat.
Hypothesis one_weight_per_column : List.length ws = List.length cols.

Lemma observed_lengths : Forall (fun xs => List.length xs = n) X.
Proof.
  unfold X. rewrite Forall_map.
  eapply Forall_impl; [|exact same_rows].
  intros c Hc. cbv beta in *. rewrite finite_part_length, Hc. reflexivity.
Qed.

(** The covariance matrix holds the numbers [cov_pairs_Q]. *)
Lemma cov_observed :
  Risk.data (Risk.cov returns)
  = map (map Fin)
        (map (fun xi => map (fun xj => cov_pairs_Q (combine xi xj)) X) X).
Proof.
  unfold Risk.cov. cbn [Risk.data]. fold cols. unfold X.
  rewrite !map_map. apply map_ext_in. intros ci Hci.
  rewrite !map_map. apply map_ext_in. intros cj Hcj.
  pose proof same_rows as Hrows. rewrite Forall_forall in Hrows.
  apply cov_entry_same_rows.
  - rewrite (Hrows ci Hci), (Hrows cj Hcj). reflexivity.
  - rewrite finite_part_length, (Hrows ci Hci). exact two_rows.
Qed.

Lemma var_p_observed :
  Risk.var_p (map Fin ws) returns
  = Risk.Ok
      (Fin (dotL ws
              (map (fun row => dotL row ws)
                   (map (fun xi =>
                           map (fun xj => cov_pairs_Q (combine xi xj)) X)
                        X)))).
Proof.
  unfold Risk.var_p, Risk.np_dot_matrix_vector.
  rewrite cov_observed.
  unfold Risk.cov. cbn [Risk.ncols]. fold cols.
  rewrite length_map, one_weight_per_column, Nat.eqb_refl.
  unfold Risk.np_dot_vector_vector.
  assert (Hlen : List.length X = List.length cols)
    by (unfold X; apply length_map).
  rewrite !length_map, Hlen, one_weight_per_column, Nat.eqb_refl.
  f_equal.
  rewrite (map_map (map Fin)).
  rewrite (map_ext (fun x => Risk.fdot (map Fin x) (map Fin ws))
                   (fun x => Fin (dotL x ws)))
    by (intro x; apply fdot_Fin).
  rewrite <- (map_map (fun x => dotL x ws) Fin).
  apply fdot_Fin.
Qed.

Lemma var_p_value :
  dotL ws
    (map (fun row => dotL row ws)
         (map (fun xi => map (fun xj => cov_pairs_Q (combine xi xj)) X) X))
  == dotQ ws (map (fun row => dotQ row ws) (sample_covariance_matrix X)).
Proof.
  rewrite dotL_dotQ. apply dotQ_ext_r.
  unfold sample_covariance_matrix. rewrite !map_map.
  apply Forall2_map_in. intros xi Hxi.
  rewrite dotL_dotQ. apply dotQ_ext_l.
  apply Forall2_map_in. intros xj Hxj.
  apply cov_pairs_covQ.
  pose proof observed_lengths as HX. rewrite Forall_forall in HX.
  rewrite (HX xi Hxi), (HX xj Hxj). reflexivity.
Qed.

End ObservedReturns.

(** C3 (amended).  [var_p] raises the shape error of [np.dot] whenever the
    number of weights differs from the number of columns of the return
    table.  With one finite weight per column, and columns that hold their
    values on the same rows, two rows at least, the result is the quadratic
    form w^T S w of the sample covariance matrix S of those values, and it
    is not negative. *)
Theorem portfolio_variance_quadratic_form
  (w : list fl) (returns : DataFrame) :
  (List.length w <> List.length (columns returns) ->
   Risk.var_p w returns
   = Risk.Raise (Risk.ValueError_shapes_not_aligned
                   (List.length (columns returns)) (List.length w)))
  /\ (forall (ws : list Q) (rows : list bool),
        w = map Fin ws ->
        List.length ws = List.length (columns returns) ->
        Forall (fun c => map is_finite (snd c) = rows) (columns returns) ->
        (2 <= List.length (filter (fun b => b) rows))%nat ->
        exists v,
          Risk.var_p w returns = Risk.Ok (Fin v)
          /\ v == quadratic_form ws
                    (sample_covariance_matrix
                       (map (fun c => finite_part (snd c)) (columns returns)))
          /\ 0 <= v).
Proof.
  split.
  - intro Hne. unfold Risk.var_p, Risk.np_dot_matrix_vector, Risk.cov.
    cbn [Risk.ncols]. rewrite length_map.
    destruct (List.length (columns returns) =? List.length w)%nat eqn:E;
      [apply Nat.eqb_eq in E; congruence | reflexivity].
  - intros ws rows -> Hlen Hrows Htwo.
    assert (Hcols : Forall (fun c => map is_finite c = rows)
                      (map snd (columns returns)))
      by (rewrite Forall_map; exact Hrows).
    assert (Hlen' : List.length ws = List.length (map snd (columns returns)))
      by (rewrite length_map; exact Hlen).
    eexists. split; [|split].
    + apply (var_p_observed returns ws rows Hcols Htwo Hlen').
    + rewrite (var_p_value returns ws rows Hcols).
      rewrite map_map. apply dotQ_quadratic_form.
    + rewrite (var_p_value returns ws rows Hcols).
      apply (covariance_form_nonneg
               (List.length (filter (fun b => b) rows))); [exact Htwo|].
      apply (observed_lengths returns rows Hcols).
Qed.

Lemma portfolio_variance_quadratic_form_witness :
  exists v,
    Risk.var_p [Fin (60 # 1); Fin (40 # 1)] sample_returns = Risk.Ok (Fin v)
    /\ v == quadratic_form [60 # 1; 40 # 1]
              (sample_covariance_matrix
                 (map (fun c => finite_part (snd c)) (columns sample_returns)))
    /\ 0 <= v.
Proof.
  apply (proj2 (portfolio_variance_quadratic_form
                  [Fin (60 # 1); Fin (40 # 1)] sample_returns)
               [60 # 1; 40 # 1] [false; true; true; true]).
  - reflexivity.
  - reflexivity.
  - repeat constructor.
  - simpl. lia.
Defined.

Example portfolio_variance_sample :
  exists v,
    Risk.var_p [Fin (60 # 1); Fin (40 # 1)] sample_returns = Risk.Ok (Fin v)
    /\ v == 208 # 1.
Proof. eexists. split; vm_compute; reflexivity. Qed.

(** C3 as stated fails: a price table of two dates gives one return, the
    covariance over N - 1 = 0 is NaN, and so is the variance. *)
Lemma portfolio_variance_of_one_return_is_nan :
  Risk.var_p [Fin (100 # 1)] (Risk.returns_df true two_day_prices)
  = Risk.Ok NaN
  /\ ~ (exists v,
          Risk.var_p [Fin (100 # 1)] (Risk.returns_df true two_day_prices)
          = Risk.Ok v
          /\ nonnegative v).
Proof.
  assert (H : Risk.var_p [Fin (100 # 1)] (Risk.returns_df true two_day_prices)
              = Risk.Ok NaN) by (vm_compute; reflexivity).
  split; [exact H|].
  intros [v [Hv Hnn]]. rewrite H in Hv. injection Hv as <-.
  discriminate Hnn.
Qed.

(** ** The diagonal against the variance [np.std] computes *)

Lemma notna_finite_part (c : list fl) :
  Forall (fun x => is_finite x = true \/ is_nan x = true) c ->
  filter notna c = map Fin (finite_part c).
Proof.
  intro H. induction H as [|x c Hx _ IH]; [reflexivity|].
  destruct x; destruct Hx as [Hx|Hx]; try discriminate; simpl;
    rewrite ?IH; reflexivity.
Qed.

Lemma varQ_sample (qs : list Q) :
  varQ qs
  == Qsum (map (fun x => (x - meanQ qs) * (x - meanQ qs)) qs)
     / inject_Z (Z.of_nat (List.length qs - 1)).
Proof.
  unfold varQ. rewrite fold_Qplus_Qsum.
  apply Qmult_comp; [|reflexivity].
  set (m := fold_left Qplus qs 0 / _).
  assert (Hm : m == meanQ qs).
  { unfold m, meanQ. rewrite fold_Qplus_Qsum.
    apply Qmult_comp; [ring | reflexivity]. }
  rewrite Qplus_0_l. apply Qsum_map_ext. intro x. rewrite Hm. ring.
Qed.

(** On a column of numbers and missing cells, the diagonal entry is the
    variance that the per-asset volatility takes the root of. *)
Lemma cov_diagonal_is_nanvar (c : list fl) :
  Forall (fun x => is_finite x = true \/ is_nan x = true) c ->
  feq (Risk.cov_entry c c) (nanvar c).
Proof.
  intro H. eapply feq_trans; [apply cov_entry_diag|].
  assert (Hvar : nanvar c = nanvar (map Fin (finite_part c))).
  { unfold nanvar. rewrite notna_Fin, (notna_finite_part c H). reflexivity. }
  rewrite Hvar. unfold sample_variance.
  destruct (List.length (finite_part c) <? 2)%nat eqn:E.
  - apply Nat.ltb_lt in E. unfold nanvar. rewrite notna_Fin, length_map.
    destruct (List.length (finite_part c) <=? 1)%nat eqn:E';
      [exact I | apply Nat.leb_gt in E'; lia].
  - apply Nat.ltb_ge in E. rewrite (nanvar_Fin _ E). simpl.
    symmetry. apply varQ_sample.
Qed.

(* ================================================================== *)
(** * Part III: further properties of the code *)
(* ================================================================== *)

(** ** The database file: adding, updating, deleting *)

Section DatabaseFacts.

Import Sqlite.

Lemma max_id_bound (t : Store.table) :
  Forall (fun i => (i <= max_id t)%Z) (map Store.id t).
Proof.
  unfold max_id. induction t as [|r t IH]; simpl; constructor.
  - apply Z.le_max_l.
  - eapply Forall_impl; [|exact IH].
    intros i Hi. cbv beta in *. etransitivity; [exact Hi | apply Z.le_max_r].
Qed.

Lemma next_id_above (t : stocks_table) :
  Forall (fun i => (i < next_id t)%Z) (map Store.id (rows t))
  /\ (sequence t < next_id t)%Z.
Proof.
  unfold next_id. split.
  - eapply Forall_impl; [|apply max_id_bound].
    intros i Hi. cbv beta in *. lia.
  - lia.
Qed.

Lemma StronglySorted_snoc (l : list Z) (x : Z) :
  StronglySorted Z.lt l -> Forall (fun i => (i < x)%Z) l ->
  StronglySorted Z.lt (l ++ [x]).
Proof.
  intros Hs Hx. apply StronglySorted_app; [exact Hs | repeat constructor |].
  intros a b Ha [<-|[]]. rewrite Forall_forall in Hx. apply Hx. exact Ha.
Qed.

Lemma StronglySorted_filter (f : Z -> bool) (l : list Z) :
  StronglySorted Z.lt l -> StronglySorted Z.lt (filter f l).
Proof.
  intro Hs. induction Hs as [|a l Hs IH Ha]; simpl; [constructor|].
  destruct (f a); [|exact IH].
  constructor; [exact IH|].
  apply Forall_forall. intros b Hb. apply filter_In in Hb.
  rewrite Forall_forall in Ha. apply Ha. tauto.
Qed.

Lemma sql_delete_ids (id0 : Z) (t : Store.table) :
  map Store.id (Store.sql_delete id0 t)
  = filter (fun i => negb (i =? id0)%Z) (map Store.id t).
Proof.
  unfold Store.sql_delete. induction t as [|r t IH]; [reflexivity|].
  simpl. destruct (Store.id r =? id0)%Z; simpl; rewrite IH; reflexivity.
Qed.

(** The ids after [update_stock]: all of them, or all but the given one. *)
Lemma update_stock_ids (id0 : Z) (account0 : string) (shares0 cost_basis0 : Q)
  (t : Store.table) :
  map Store.id (Store.update_stock id0 account0 shares0 cost_basis0 t)
  = if Qltb 0 shares0 then map Store.id t
    else filter (fun i => negb (i =? id0)%Z) (map Store.id t).
Proof.
  unfold Store.update_stock. destruct (Qltb 0 shares0).
  - apply sql_update_ids.
  - apply sql_delete_ids.
Qed.

Lemma press_consistent (a : action) (db : database) :
  consistent db -> consistent (press a db).
Proof.
  intro Hc. unfold press.
  destruct a as [tk ac sh cb | id0 ac sh cb]; simpl;
    destruct db as [t|]; simpl; try exact Hc.
  - destruct (has_account t); simpl; [|exact Hc].
    destruct Hc as [Hs Hb]. destruct (next_id_above t) as [Hlt Hseq].
    rewrite map_app. simpl. split.
    + apply StronglySorted_snoc; assumption.
    + apply Forall_app. split.
      * eapply Forall_impl; [|exact Hlt]. intros i Hi. cbv beta in *. lia.
      * repeat constructor. apply Z.le_refl.
  - destruct (Qltb 0 sh && negb (has_account t))%bool; simpl; [exact Hc|].
    destruct Hc as [Hs Hb]. rewrite update_stock_ids.
    destruct (Qltb 0 sh); [split; assumption|]. split.
    + apply StronglySorted_filter. exact Hs.
    + apply Forall_forall. intros i Hi. apply filter_In in Hi.
      rewrite Forall_forall in Hb. apply Hb. tauto.
Qed.

Lemma session_consistent (actions : list action) (db : database) :
  consistent db -> consistent (session actions db).
Proof.
  revert db. induction actions as [|a actions IH]; intros db Hc; simpl.
  - exact Hc.
  - apply IH. apply press_consistent. exact Hc.
Qed.

Lemma StronglySorted_lt_NoDup (l : list Z) :
  StronglySorted Z.lt l -> NoDup l.
Proof.
  intro Hs. induction Hs as [|a l Hs IH Ha]; constructor; [|exact IH].
  intro Hin. rewrite Forall_forall in Ha. specialize (Ha a Hin). lia.
Qed.

End DatabaseFacts.

(** X1.  On a table that has the account column, [save_stock] succeeds,
    and [load_portfolio] then returns the rows there were, unchanged and in
    order, followed by one new row that holds the given ticker, account,
    shares and cost basis under an id greater than every id of the table. *)
Theorem save_stock_then_load
  (t : Sqlite.stocks_table) (ticker0 account0 : string) (shares0 cost_basis0 : Q)
  (with_account : Sqlite.has_account t = true) :
  exists db' new_id,
    Sqlite.save_stock ticker0 account0 shares0 cost_basis0 (Some t)
    = Sqlite.Done db'
    /\ Sqlite.load_portfolio db'
       = Sqlite.Done
           (Sqlite.rows t
            ++ [Store.mkStock new_id ticker0 account0 shares0 cost_basis0])
    /\ Forall (fun r => (Store.id r < new_id)%Z) (Sqlite.rows t).
Proof.
  unfold Sqlite.save_stock. rewrite with_account.
  eexists. exists (Sqlite.next_id t). split; [reflexivity|].
  split; [reflexivity|].
  destruct (next_id_above t) as [Hlt _].
  rewrite Forall_map in Hlt. exact Hlt.
Qed.

(** X2.  Whatever buttons are pressed, a consistent database stays
    consistent: the ids ascend with the rows, so no two rows share an id,
    and none exceeds the AUTOINCREMENT sequence. *)
Theorem session_keeps_ids_distinct
  (actions : list Sqlite.action) (db : Sqlite.database)
  (consistent_before : Sqlite.consistent db) :
  Sqlite.consistent (Sqlite.session actions db)
  /\ NoDup (Sqlite.ids (Sqlite.session actions db)).
Proof.
  pose proof (session_consistent actions db consistent_before) as Hc.
  split; [exact Hc|].
  destruct (Sqlite.session actions db) as [t|]; simpl.
  - apply StronglySorted_lt_NoDup. exact (proj1 Hc).
  - constructor.
Qed.

Lemma save_stock_then_load_witness :
  exists db' new_id,
    Sqlite.save_stock "PEP" "HSA" 2 (170 # 1)
      (Some (Sqlite.mkTable true sample_table 3))
    = Sqlite.Done db'
    /\ Sqlite.load_portfolio db'
       = Sqlite.Done (sample_table
                      ++ [Store.mkStock new_id "PEP" "HSA" 2 (170 # 1)])
    /\ Forall (fun r => (Store.id r < new_id)%Z) sample_table.
Proof.
  apply (save_stock_then_load (Sqlite.mkTable true sample_table 3)
           "PEP" "HSA" 2 (170 # 1)).
  reflexivity.
Defined.

Lemma sample_db_consistent : Sqlite.consistent sample_db.
Proof.
  simpl. split.
  - repeat constructor.
  - repeat constructor; discriminate.
Qed.

Lemma session_keeps_ids_distinct_witness :
  NoDup (Sqlite.ids
           (Sqlite.session
              [ Sqlite.Update 2 "HSA" 0 (1 # 1);
                Sqlite.Add "PEP" "HSA" 2 (170 # 1) ]
              sample_db)).
Proof.
  apply (session_keeps_ids_distinct
           [ Sqlite.Update 2 "HSA" 0 (1 # 1);
             Sqlite.Add "PEP" "HSA" 2 (170 # 1) ]
           sample_db sample_db_consistent).
Defined.

Example session_sample :
  Sqlite.ids
    (Sqlite.session
       [ Sqlite.Update 2 "HSA" 0 (1 # 1);
         Sqlite.Add "PEP" "HSA" 2 (170 # 1) ]
       sample_db)
  = [1; 3; 4]%Z.
Proof. reflexivity. Qed.

Section RetiredIds.

Import Sqlite.

Variable id0 : Z.

Lemma press_retired (a : action) (db : database) :
  retired id0 db -> retired id0 (press a db).
Proof.
  intro Hr. unfold press.
  destruct a as [tk ac sh cb | id1 ac sh cb]; simpl;
    destruct db as [t|]; simpl; try exact Hr.
  - destruct (has_account t); simpl; [|exact Hr].
    destruct Hr as [Hle Hnot]. destruct (next_id_above t) as [_ Hseq].
    split; [lia|].
    rewrite map_app. simpl. intro Hin. apply in_app_or in Hin.
    destruct Hin as [Hin|[Heq|[]]]; [contradiction | lia].
  - destruct (Qltb 0 sh && negb (has_account t))%bool; simpl; [exact Hr|].
    destruct Hr as [Hle Hnot]. split; [exact Hle|].
    rewrite update_stock_ids. destruct (Qltb 0 sh); [exact Hnot|].
    intro Hin. apply filter_In in Hin. tauto.
Qed.

Lemma session_retired (actions : list action) (db : database) :
  retired id0 db -> retired id0 (session actions db).
Proof.
  revert db. induction actions as [|a actions IH]; intros db Hr; simpl.
  - exact Hr.
  - apply IH. apply press_retired. exact Hr.
Qed.

Lemma retired_absent (db : database) : retired id0 db -> ~ In id0 (ids db).
Proof.
  destruct db as [t|]; simpl; [tauto | auto].
Qed.

End RetiredIds.

(** X3.  An id that [update_stock] has deleted (shares <= 0) never comes
    back: after any further presses of "Add Stock" and "Update" no row has
    that id, because AUTOINCREMENT only hands out ids above its sequence. *)
Theorem deleted_id_never_returns
  (db : Sqlite.database) (id0 : Z) (account0 : string)
  (shares0 cost_basis0 : Q) (actions : list Sqlite.action)
  (consistent_before : Sqlite.consistent db)
  (present : In id0 (Sqlite.ids db))
  (delete : shares0 <= 0) :
  ~ In id0
      (Sqlite.ids
         (Sqlite.session actions
            (Sqlite.press (Sqlite.Update id0 account0 shares0 cost_basis0)
                          db))).
Proof.
  apply retired_absent, session_retired.
  destruct db as [t|]; [|contradiction].
  apply Qltb_ge in delete.
  unfold Sqlite.press. simpl. rewrite delete. simpl.
  destruct consistent_before as [_ Hb]. simpl in present. split.
  - rewrite Forall_forall in Hb. apply Hb. exact present.
  - rewrite update_stock_ids, delete. intro Hin.
    apply filter_In in Hin. destruct Hin as [_ Hne].
    rewrite Z.eqb_refl in Hne. discriminate.
Qed.

Lemma deleted_id_never_returns_witness :
  ~ In 2%Z
      (Sqlite.ids
         (Sqlite.session
            [ Sqlite.Add "PEP" "HSA" 2 (170 # 1);
              Sqlite.Update 2 "Webull" 5 (1 # 1) ]
            (Sqlite.press (Sqlite.Update 2 "HSA" 0 (1 # 1)) sample_db))).
Proof.
  apply (deleted_id_never_returns sample_db 2 "HSA" 0 (1 # 1)).
  - exact sample_db_consistent.
  - simpl. auto.
  - unfold Qle. simpl. lia.
Defined.

Lemma press_on_created_table (a : Sqlite.action) (sequence0 : Z) :
  Sqlite.press a (Some (Sqlite.mkTable false [] sequence0))
  = Some (Sqlite.mkTable false [] sequence0).
Proof.
  unfold Sqlite.press.
  destruct a as [tk ac sh cb | id1 ac sh cb]; simpl; [reflexivity|].
  destruct (Qltb 0 sh) eqn:E; simpl; [reflexivity|].
  unfold Sqlite.update_rows, Store.update_stock. simpl. rewrite E.
  reflexivity.
Qed.

(** X4.  The table [init_db] creates has no account column, so on a new
    database file every "Add Stock" fails with an OperationalError, and no
    sequence of presses ever stores a row: the portfolio stays empty. *)
Theorem new_database_stays_empty
  (ticker0 account0 : string) (shares0 cost_basis0 : Q)
  (actions : list Sqlite.action) :
  Sqlite.save_stock ticker0 account0 shares0 cost_basis0 (Sqlite.init_db None)
  = Sqlite.Fails Sqlite.no_column_named_account
  /\ Sqlite.load_portfolio (Sqlite.session actions (Sqlite.init_db None))
     = Sqlite.Done [].
Proof.
  split; [reflexivity|].
  assert (H : Sqlite.session actions (Sqlite.init_db None)
              = Some (Sqlite.mkTable false [] 0)).
  { simpl. induction actions as [|a actions IH]; [reflexivity|].
    simpl. rewrite press_on_created_table. exact IH. }
  rewrite H. reflexivity.
Qed.

Section UpdateFacts.

Import Store.

Variables (id0 : Z) (account0 : string) (shares0 cost_basis0 : Q).

Lemma sql_update_absent (t : table) :
  ~ In id0 (map id t) ->
  sql_update id0 account0 shares0 cost_basis0 t = t.
Proof.
  unfold sql_update. induction t as [|r t IH]; intro H; [reflexivity|].
  simpl in *. destruct (id r =? id0)%Z eqn:E.
  - apply Z.eqb_eq in E. tauto.
  - rewrite IH by tauto. reflexivity.
Qed.

Lemma sql_delete_absent_same (t : table) :
  ~ In id0 (map id t) -> sql_delete id0 t = t.
Proof.
  unfold sql_delete. induction t as [|r t IH]; intro H; [reflexivity|].
  simpl in *. destruct (id r =? id0)%Z eqn:E.
  - apply Z.eqb_eq in E. tauto.
  - simpl. rewrite IH by tauto. reflexivity.
Qed.

Lemma sql_update_twice (t : table) :
  sql_update id0 account0 shares0 cost_basis0
    (sql_update id0 account0 shares0 cost_basis0 t)
  = sql_update id0 account0 shares0 cost_basis0 t.
Proof.
  unfold sql_update. rewrite map_map. apply map_ext. intro r.
  destruct (id r =? id0)%Z eqn:E; simpl; rewrite E; reflexivity.
Qed.

End UpdateFacts.

(** X5.  [update_stock] with an id that no row has changes nothing,
    whatever the shares: neither the UPDATE nor the DELETE finds a row. *)
Theorem update_stock_unknown_id
  (t : Store.table) (id0 : Z) (account0 : string) (shares0 cost_basis0 : Q)
  (unknown : ~ In id0 (map Store.id t)) :
  Store.update_stock id0 account0 shares0 cost_basis0 t = t.
Proof.
  unfold Store.update_stock. destruct (Qltb 0 shares0).
  - apply sql_update_absent. exact unknown.
  - apply sql_delete_absent_same. exact unknown.
Qed.

Lemma update_stock_unknown_id_witness :
  Store.update_stock 9 "HSA" 7 (1 # 1) sample_table = sample_table
  /\ Store.update_stock 9 "HSA" 0 (1 # 1) sample_table = sample_table.
Proof.
  split; apply update_stock_unknown_id; simpl; intuition discriminate.
Defined.

(** X6.  Pressing "Update" twice with the same values is the same as
    pressing it once. *)
Theorem update_stock_idempotent
  (t : Store.table) (id0 : Z) (account0 : string) (shares0 cost_basis0 : Q) :
  Store.update_stock id0 account0 shares0 cost_basis0
    (Store.update_stock id0 account0 shares0 cost_basis0 t)
  = Store.update_stock id0 account0 shares0 cost_basis0 t.
Proof.
  unfold Store.update_stock. destruct (Qltb 0 shares0).
  - apply sql_update_twice.
  - apply sql_delete_absent_same. apply sql_delete_absent.
Qed.

(** ** Sums of columns of numbers and missing cells *)

Lemma nansum_numbers (l : list fl) :
  Forall number_or_nan l ->
  nansum l = Fin (fold_left Qplus (finite_part l) 0).
Proof.
  intro H. unfold nansum.
  rewrite (notna_finite_part l H). apply fold_fadd_Fin.
Qed.



Lemma finite_part_Fin (qs : list Q) : finite_part (map Fin qs) = qs.
Proof. induction qs as [|q qs IH]; simpl; congruence. Qed.

(** ** The valuation columns *)

Section ValuationFacts.

Variable yf : Valuation.provider.

Lemma total_value_number_or_nan (r : Store.stock) :
  Valuation.current_price yf r <> PInf ->
  Valuation.current_price yf r <> NInf ->
  number_or_nan (Valuation.total_value yf r).
Proof.
  unfold Valuation.total_value, number_or_nan. intros Hp Hn.
  destruct (Valuation.current_price yf r); simpl; auto; congruence.
Qed.

Lemma unpriced_not_finite (r : Store.stock) :
  Valuation.priced yf r = None ->
  is_finite (Valuation.total_value yf r) = false.
Proof.
  unfold Valuation.priced, Valuation.total_value.
  destruct (Valuation.current_price yf r); simpl; try discriminate;
    intros _; try reflexivity.
  - apply inf_times_not_finite.
  - pose proof (inf_times_not_finite (Store.shares r)) as H.
    destruct (inf_times (Store.shares r)); try discriminate; reflexivity.
Qed.

Lemma finite_part_skip (x : fl) (l : list fl) :
  is_finite x = false -> finite_part (x :: l) = finite_part l.
Proof. destruct x; simpl; intro H; congruence. Qed.

Lemma finite_part_total_values (f : Q -> Q) (g : fl -> fl)
  (portfolio : Store.table) :
  (forall q, g (Fin q) = Fin (f q)) ->
  (forall x, is_finite x = false -> is_finite (g x) = false) ->
  finite_part (map (fun r => g (Valuation.total_value yf r)) portfolio)
  = map f (Valuation.defined_values yf portfolio).
Proof.
  intros Hfin Hother.
  induction portfolio as [|r rest IH]; [reflexivity|].
  cbn [map Valuation.defined_values].
  destruct (Valuation.priced yf r) as [v|] eqn:Ep.
  - rewrite (priced_total_value yf r v Ep), Hfin.
    cbn [finite_part map]. rewrite IH. reflexivity.
  - rewrite finite_part_skip; [exact IH|].
    apply Hother, unpriced_not_finite. exact Ep.
Qed.




End ValuationFacts.





Lemma sample_prices_not_infinite :
  prices_not_infinite sample_provider sample_table.
Proof.
  intros r [<-|[<-|[<-|[]]]]; split; discriminate.
Qed.



Example total_gain_loss_sample :
  feq (Summary.total_gain_loss sample_provider sample_table) (Fin (40 # 1))
  /\ feq (Summary.total_gain_loss_percent sample_provider sample_table)
         (Fin (40 # 17)).
Proof. split; vm_compute; reflexivity. Qed.

(** ** The weights *)

Lemma total_portfolio_value_Fin (yf : Valuation.provider)
  (portfolio : Store.table) :
  prices_not_infinite yf portfolio ->
  Valuation.total_portfolio_value yf portfolio
  = Fin (fold_left Qplus (Valuation.defined_values yf portfolio) 0).
Proof.
  intro Hfin. unfold Valuation.total_portfolio_value, nansum.
  rewrite (notna_values yf portfolio Hfin). apply fold_fadd_Fin.
Qed.

Lemma Qsum_share (T : Q) (l : list Q) :
  ~ T == 0 ->
  Qsum (map (fun v => v / T * 100) l) == Qsum l / T * 100.
Proof.
  intro HT. induction l as [|v l IH]; simpl.
  - field. exact HT.
  - rewrite IH. field. exact HT.
Qed.

(** X9.  When the portfolio total is not zero, the ['Portfolio %'] cells of
    the priced positions add up to 100, and a position whose price lookup
    fails has the cell NaN. *)
Theorem portfolio_pct_sums_to_100
  (yf : Valuation.provider) (portfolio : Store.table)
  (numbers : prices_not_infinite yf portfolio)
  (not_zero : ~ feq (Valuation.total_portfolio_value yf portfolio) (Fin 0)) :
  feq (nansum (Valuation.portfolio_pct yf portfolio)) (Fin 100)
  /\ Forall number_or_nan (Valuation.portfolio_pct yf portfolio)
  /\ (forall r, In r portfolio ->
        Valuation.get_current_price yf (Store.ticker r) = None ->
        fmul (fdiv (Valuation.total_value yf r)
                   (Valuation.total_portfolio_value yf portfolio))
             (Fin 100) = NaN).
Proof.
  unfold Valuation.portfolio_pct.
  rewrite (total_portfolio_value_Fin yf portfolio numbers) in *.
  set (T := fold_left Qplus (Valuation.defined_values yf portfolio) 0) in *.
  assert (HT : ~ T == 0) by exact not_zero.
  assert (HTb : Qzerob T = false) by (apply Qzerob_false; exact HT).
  assert (Hnum : Forall number_or_nan
            (map (fun r => fmul (fdiv (Valuation.total_value yf r) (Fin T))
                                (Fin 100)) portfolio)).
  { rewrite Forall_map. apply Forall_forall. intros r Hr.
    destruct (numbers r Hr) as [Hp Hn].
    pose proof (total_value_number_or_nan yf r Hp Hn) as H.
    unfold number_or_nan in *.
    destruct (Valuation.total_value yf r); simpl in *;
      rewrite ?HTb; simpl; auto; destruct H; discriminate. }
  split; [|split].
  - rewrite (nansum_numbers _ Hnum). simpl.
    rewrite fold_Qplus_Qsum, Qplus_0_l.
    rewrite (finite_part_total_values yf (fun v => v / T * 100)
               (fun x => fmul (fdiv x (Fin T)) (Fin 100))).
    + rewrite (Qsum_share T _ HT).
      assert (Hsum : Qsum (Valuation.defined_values yf portfolio) == T)
        by (unfold T; rewrite fold_Qplus_Qsum; ring).
      rewrite Hsum. field. exact HT.
    + intro q. simpl. rewrite HTb. reflexivity.
    + intros x Hx. destruct x; simpl in *; try congruence;
        destruct (Qltb T 0); reflexivity.
  - exact Hnum.
  - intros r _ Hnone. unfold Valuation.total_value, Valuation.current_price.
    rewrite Hnone. reflexivity.
Qed.

Lemma portfolio_pct_sums_to_100_witness :
  feq (nansum (Valuation.portfolio_pct sample_provider sample_table))
      (Fin 100).
Proof.
  apply (portfolio_pct_sums_to_100 sample_provider sample_table
           sample_prices_not_infinite).
  vm_compute. discriminate.
Defined.

(** ** Dividends: who is counted *)

Lemma dividend_data_payers (yf : Dividends.fundamentals)
  (portfolio : Store.table) :
  Dividends.dividend_data yf portfolio
  = Dividends.dividend_data yf (filter (pays yf) portfolio)
  /\ List.length (Dividends.dividend_data yf portfolio)
     = List.length (filter (pays yf) portfolio).
Proof.
  induction portfolio as [|r rest [IH1 IH2]]; [split; reflexivity|].
  cbn [filter].
  destruct (Dividends.dividendRate (yf (Store.ticker r))) as [rate|] eqn:E.
  - assert (Hp : pays yf r = true) by (unfold pays; rewrite E; reflexivity).
    rewrite Hp.
    rewrite (dividend_data_payer yf r rest rate E).
    rewrite (dividend_data_payer yf r _ rate E).
    cbn [List.length]. rewrite <- IH1, IH2. split; reflexivity.
  - assert (Hp : pays yf r = false) by (unfold pays; rewrite E; reflexivity).
    rewrite Hp, (dividend_data_non_payer yf r rest E).
    split; assumption.
Qed.

(** X10.  The dividend figures depend on the positions that have a dividend
    rate and on nothing else: the other positions can be removed without
    changing the total or the average, one record is made per position with
    a rate, and the page reports that no stock pays exactly when no position
    has a rate. *)
Theorem dividends_count_payers_only
  (yf : Dividends.fundamentals) (portfolio : Store.table) :
  Dividends.aggregates yf portfolio
  = Dividends.aggregates yf (filter (pays yf) portfolio)
  /\ List.length (Dividends.dividend_data yf portfolio)
     = List.length (filter (pays yf) portfolio)
  /\ (Dividends.aggregates yf portfolio = None
      <-> filter (pays yf) portfolio = []).
Proof.
  destruct (dividend_data_payers yf portfolio) as [Hdata Hlen].
  split; [|split].
  - unfold Dividends.aggregates. rewrite <- Hdata. reflexivity.
  - exact Hlen.
  - unfold Dividends.aggregates.
    destruct (Dividends.dividend_data yf portfolio) as [|d df] eqn:E.
    + split; [|reflexivity]. intros _.
      apply length_zero_iff_nil. rewrite <- Hlen. reflexivity.
    + split; [discriminate|]. intro Hnil.
      rewrite Hnil in Hlen. discriminate Hlen.
Qed.

(** ** The two-decimal rendering *)

Lemma round_half_even_near (q : Q) :
  q - (1 # 2) <= inject_Z (round_half_even q)
  /\ inject_Z (round_half_even q) <= q + (1 # 2).
Proof.
  unfold round_half_even.
  pose proof (Qfloor_le q) as Hlo. pose proof (Qlt_floor q) as Hhi.
  assert (Hnext : inject_Z (Qfloor q + 1) == inject_Z (Qfloor q) + 1)
    by (rewrite inject_Z_plus; reflexivity).
  rewrite Hnext in Hhi.
  destruct (Qltb (q - inject_Z (Qfloor q)) (1 # 2)) eqn:E1.
  - apply Qltb_lt in E1. split; lra.
  - apply Qltb_ge in E1.
    destruct (Qltb (1 # 2) (q - inject_Z (Qfloor q))) eqn:E2.
    + rewrite Hnext. split; lra.
    + apply Qltb_ge in E2.
      destruct (Z.even (Qfloor q)); rewrite ?Hnext; split; lra.
Qed.

Lemma round_half_even_integer (n : Z) : round_half_even (inject_Z n) = n.
Proof.
  unfold round_half_even. rewrite Qfloor_Z.
  assert (H : Qltb (inject_Z n - inject_Z n) (1 # 2) = true).
  { apply Qltb_lt. lra. }
  rewrite H. reflexivity.
Qed.

Lemma Qmake_scale (n : Z) (d : positive) :
  Qmake n (Z.to_pos (10 ^ Z.pos d)) * inject_Z (10 ^ Z.pos d) == inject_Z n.
Proof.
  assert (Hpos : (0 < 10 ^ Z.pos d)%Z) by (apply Z.pow_pos_nonneg; lia).
  unfold Qeq, Qmult, inject_Z. simpl Qnum. simpl Qden.
  rewrite Pos.mul_1_r, Z.mul_1_r, Z2Pos.id by exact Hpos. reflexivity.
Qed.

Lemma fmt2_near (x : Q) :
  x - (1 # 200) <= Dividends.fmt2 x /\ Dividends.fmt2 x <= x + (1 # 200).
Proof.
  unfold Dividends.fmt2.
  assert (Hval : round_to 2 x * inject_Z 100
                 == inject_Z (round_half_even (x * inject_Z 100)))
    by (apply (Qmake_scale _ 2)).
  destruct (round_half_even_near (x * inject_Z 100)) as [Hlo Hhi].
  rewrite <- Hval in Hlo, Hhi.
  assert (H100 : inject_Z 100 == 100) by reflexivity.
  rewrite H100 in Hlo, Hhi.
  split; lra.
Qed.

(** X11.  Formatting with two decimals and parsing back moves a value by
    at most half a cent, and doing it again changes nothing. *)
Theorem two_decimals_near_and_stable (x : Q) :
  x - (1 # 200) <= Dividends.fmt2 x
  /\ Dividends.fmt2 x <= x + (1 # 200)
  /\ Dividends.fmt2 (Dividends.fmt2 x) = Dividends.fmt2 x.
Proof.
  destruct (fmt2_near x) as [Hlo Hhi].
  split; [exact Hlo | split; [exact Hhi|]].
  unfold Dividends.fmt2.
  assert (Hval : round_to 2 x * inject_Z (10 ^ 2)
                 == inject_Z (round_half_even (x * inject_Z (10 ^ 2))))
    by (apply (Qmake_scale _ 2)).
  unfold round_to at 1.
  rewrite (round_half_even_compat _ _ Hval), round_half_even_integer.
  reflexivity.
Qed.



(** ** The payout colours *)

Section PayoutColours.

Import DividendChart.

Lemma payout_color_cases (x : Q) :
  (x < 50 /\ payout_color x = green)
  \/ (50 <= x /\ x < 70 /\ payout_color x = yellow)
  \/ (70 <= x /\ payout_color x = red).
Proof.
  unfold payout_color.
  destruct (Qltb x 50) eqn:E1.
  - left. apply Qltb_lt in E1. auto.
  - apply Qltb_ge in E1.
    assert (Hle : Qle_bool 50 x = true) by (apply Qle_bool_iff; exact E1).
    rewrite Hle. simpl.
    destruct (Qltb x 70) eqn:E2.
    + right. left. apply Qltb_lt in E2. auto.
    + right. right. apply Qltb_ge in E2. auto.
Qed.

End PayoutColours.

(** X13.  Every payout ratio gets one colour: green below 50, yellow from
    50 to below 70, red from 70 on; a higher payout ratio never gets a less
    alarming colour. *)
Theorem payout_colours_by_threshold (x y : Q) :
  (DividendChart.payout_color x = DividendChart.green <-> x < 50)
  /\ (DividendChart.payout_color x = DividendChart.yellow
      <-> 50 <= x /\ x < 70)
  /\ (DividendChart.payout_color x = DividendChart.red <-> 70 <= x)
  /\ (x <= y ->
      (DividendChart.alarm (DividendChart.payout_color x)
       <= DividendChart.alarm (DividendChart.payout_color y))%nat).
Proof.
  destruct (payout_color_cases x) as [[Hx ->]|[[Hx1 [Hx2 ->]]|[Hx ->]]];
    (split; [|split; [|split]]);
    try (split; intro H; try discriminate H; try reflexivity; try lra; auto);
    intro Hxy;
    destruct (payout_color_cases y) as [[Hy ->]|[[Hy1 [Hy2 ->]]|[Hy ->]]];
    simpl; try lia; lra.
Qed.

(** ** Back-fill: once is enough, and only the tail stays missing *)

Lemma bfill_twice (c : list fl) : bfill (bfill c) = bfill c.
Proof.
  induction c as [|x c IH]; [reflexivity|].
  cbn [bfill]. rewrite IH.
  destruct (is_nan x) eqn:Ex.
  - destruct (hd NaN (bfill c)) eqn:Eh; reflexivity.
  - rewrite Ex. reflexivity.
Qed.

Lemma first_valid_nan (l : list fl) :
  is_nan (first_valid l) = true <-> Forall (fun x => is_nan x = true) l.
Proof.
  induction l as [|x l IH]; simpl.
  - split; [constructor | reflexivity].
  - destruct (is_nan x) eqn:Ex.
    + rewrite IH. split; intro H.
      * constructor; assumption.
      * inversion H. assumption.
    + split; intro H.
      * congruence.
      * inversion H. congruence.
Qed.

Lemma Forall_skipn_more {A : Type} (P : A -> Prop) (l : list A) (i j : nat) :
  (i <= j)%nat -> Forall P (skipn i l) -> Forall P (skipn j l).
Proof.
  intros Hij H.
  replace j with ((j - i) + i)%nat by lia.
  rewrite <- skipn_skipn.
  generalize (skipn i l) H. clear. intros l0 H0.
  revert l0 H0. induction (j - i)%nat as [|k IH]; intros l0 H0; [exact H0|].
  destruct l0 as [|x l0]; [constructor|].
  simpl. apply IH. inversion H0. assumption.
Qed.

(** X14.  Back-filling a column a second time changes nothing, and after
    the back-fill the missing cells are the last ones of the column: below
    a missing cell every cell is missing. *)
Theorem bfill_once_and_trailing (c : list fl) :
  bfill (bfill c) = bfill c
  /\ forall i j,
       (i <= j)%nat -> (j < List.length c)%nat ->
       is_nan (cell (bfill c) i) = true ->
       is_nan (cell (bfill c) j) = true.
Proof.
  split; [apply bfill_twice|].
  intros i j Hij Hj Hi.
  rewrite bfill_cell in Hi by lia. rewrite bfill_cell by exact Hj.
  apply first_valid_nan. apply first_valid_nan in Hi.
  apply (Forall_skipn_more _ c i j Hij Hi).
Qed.

Lemma bfill_once_and_trailing_witness :
  is_nan (cell (bfill [Fin 1; NaN; Fin 2; NaN; NaN]) 4) = true.
Proof.
  apply (proj2 (bfill_once_and_trailing [Fin 1; NaN; Fin 2; NaN; NaN]) 3%nat);
    [lia | simpl; lia | reflexivity].
Defined.

(** ** Returns against prices *)

Lemma ffill_from_Fin (last : fl) (ps : list Q) :
  ffill_from last (map Fin ps) = map Fin ps.
Proof.
  revert last. induction ps as [|p ps IH]; intro last; [reflexivity|].
  simpl. rewrite IH. reflexivity.
Qed.

Lemma combine_removelast (x : fl) (l : list fl) :
  combine l (removelast (x :: l)) = combine l (x :: l).
Proof.
  revert x. induction l as [|y l IH]; intro x; [reflexivity|].
  change (removelast (x :: y :: l)) with (x :: removelast (y :: l)).
  cbn [combine]. rewrite IH. reflexivity.
Qed.

(** The returns of a column of numbers: NaN, then each price against the
    one before. *)
Lemma pct_change_Fin (pad : bool) (p0 : Q) (rest : list Q) :
  pct_change pad (map Fin (p0 :: rest))
  = NaN :: map (fun p => fsub (fdiv (fst p) (snd p)) (Fin 1))
               (combine (map Fin rest) (map Fin (p0 :: rest))).
Proof.
  unfold pct_change.
  assert (Hdata : (if pad then ffill (map Fin (p0 :: rest))
                   else map Fin (p0 :: rest)) = map Fin (p0 :: rest))
    by (destruct pad; [apply ffill_from_Fin | reflexivity]).
  rewrite Hdata. cbn [map shift combine fst snd].
  change (Fin p0 :: map Fin rest) with (map Fin (p0 :: rest)).
  f_equal. cbn [map]. rewrite combine_removelast. reflexivity.
Qed.

Lemma adjacent_returns (p0 : Q) (rest : list Q) (i : nat) :
  Forall (fun p => ~ p == 0) (p0 :: rest) ->
  (i < List.length rest)%nat ->
  nth i (map (fun p => fsub (fdiv (fst p) (snd p)) (Fin 1))
             (combine (map Fin rest) (map Fin (p0 :: rest)))) NaN
  = Fin (nth i rest 0 / nth i (p0 :: rest) 0 + - (1)).
Proof.
  revert p0 i. induction rest as [|p1 rest IH]; intros p0 i Hnz Hi;
    [simpl in Hi; lia|].
  inversion Hnz as [|? ? Hp0 Hrest]; subst.
  destruct i as [|i].
  - cbn [map combine nth fst snd].
    unfold fsub. rewrite fdiv_Fin by (apply Qzerob_false; exact Hp0).
    reflexivity.
  - cbn [map combine nth]. apply (IH p1 i Hrest). simpl in Hi. lia.
Qed.

(** X15.  On a column of non-zero prices the first return is NaN and
    every later return r rebuilds its price from the one before:
    price = previous price * (1 + r). *)
Theorem returns_rebuild_prices
  (pad : bool) (prices : list Q)
  (non_zero : Forall (fun p => ~ p == 0) prices) :
  let returns := pct_change pad (map Fin prices) in
  (prices <> [] -> cell returns 0 = NaN)
  /\ forall i, (S i < List.length prices)%nat ->
       exists r,
         cell returns (S i) = Fin r
         /\ nth (S i) prices 0 == nth i prices 0 * (1 + r).
Proof.
  cbv zeta. destruct prices as [|p0 rest].
  - split; [congruence | simpl; lia].
  - rewrite pct_change_Fin. split; [reflexivity|].
    intros i Hi. unfold cell. cbn [nth].
    rewrite (adjacent_returns p0 rest i non_zero) by (simpl in Hi; lia).
    eexists. split; [reflexivity|].
    change (nth (S i) (p0 :: rest) 0) with (nth i rest 0).
    assert (Hnz : ~ nth i (p0 :: rest) 0 == 0).
    { rewrite Forall_forall in non_zero. apply non_zero.
      apply nth_In. simpl in *. lia. }
    change (match i with 0%nat => p0 | S m => nth m rest 0 end)
      with (nth i (p0 :: rest) 0).
    revert Hnz. generalize (nth i (p0 :: rest) 0) (nth i rest 0).
    intros b a Hb. field. exact Hb.
Qed.

Lemma returns_rebuild_prices_witness :
  exists r,
    cell (pct_change true [Fin (10 # 1); Fin (11 # 1); Fin (22 # 1)]) 2 = Fin r
    /\ 22 # 1 == (11 # 1) * (1 + r).
Proof.
  apply (proj2 (returns_rebuild_prices true [10 # 1; 11 # 1; 22 # 1]
                  ltac:(repeat constructor; discriminate)) 1%nat).
  simpl. lia.
Defined.

(** ** A ticker held twice *)

Section DictFacts.

Import RiskPage.






End DictFacts.






(** ** The variance against the scale of the weights *)

Lemma quadratic_scale (c : Q) (w : list Q) (S : list (list Q)) :
  dotQ (vscale c w) (map (fun row => dotQ row (vscale c w)) S)
  == c * c * dotQ w (map (fun row => dotQ row w) S).
Proof.
  rewrite dotQ_comm, dotQ_vscale_r, dotQ_comm.
  assert (Hrows : Forall2 Qeq
            (map (fun row => dotQ row (vscale c w)) S)
            (vscale c (map (fun row => dotQ row w) S))).
  { unfold vscale at 2. rewrite map_map.
    apply Forall2_map_in. intros row _. apply dotQ_vscale_r. }
  rewrite (dotQ_ext_r w _ _ Hrows), dotQ_vscale_r. ring.
Qed.

(** X17.  On columns observed on the same rows, two at least, the
    portfolio variance grows with the square of the scale of the weights:
    weights in percent give 10000 times the variance of the same weights as
    fractions, which is why the page divides the risk by 100. *)
Theorem variance_scales_with_square
  (returns : DataFrame) (ws : list Q) (rows : list bool) (c : Q)
  (same_rows : Forall (fun col => map is_finite (snd col) = rows)
                      (columns returns))
  (two_rows : (2 <= List.length (filter (fun b => b) rows))%nat)
  (one_weight_per_column : List.length ws = List.length (columns returns)) :
  exists v v',
    Risk.var_p (map Fin ws) returns = Risk.Ok (Fin v)
    /\ Risk.var_p (map Fin (map (Qmult c) ws)) returns = Risk.Ok (Fin v')
    /\ v' == c * c * v.
Proof.
  assert (Hcols : Forall (fun col => map is_finite col = rows)
                    (map snd (columns returns)))
    by (rewrite Forall_map; exact same_rows).
  assert (Hlen : List.length ws = List.length (map snd (columns returns)))
    by (rewrite length_map; exact one_weight_per_column).
  assert (Hlen' : List.length (map (Qmult c) ws)
                  = List.length (map snd (columns returns)))
    by (rewrite length_map; exact Hlen).
  eexists. eexists. split; [|split].
  - apply (var_p_observed returns ws rows Hcols two_rows Hlen).
  - apply (var_p_observed returns (map (Qmult c) ws) rows Hcols two_rows Hlen').
  - rewrite (var_p_value returns ws rows Hcols).
    rewrite (var_p_value returns (map (Qmult c) ws) rows Hcols).
    apply quadratic_scale.
Qed.

Lemma variance_scales_with_square_witness :
  exists v v',
    Risk.var_p (map Fin [6 # 10; 4 # 10]) sample_returns = Risk.Ok (Fin v)
    /\ Risk.var_p (map Fin (map (Qmult 100) [6 # 10; 4 # 10])) sample_returns
       = Risk.Ok (Fin v')
    /\ v' == 100 * 100 * v.
Proof.
  apply (variance_scales_with_square sample_returns [6 # 10; 4 # 10]
           [false; true; true; true] 100).
  - repeat constructor.
  - simpl. lia.
  - reflexivity.
Defined.

(** X18.  With a single asset of two returns at least, the portfolio
    variance is the square of the weight times the sample variance of the
    asset's returns: nothing is diversified. *)
Theorem single_asset_variance
  (dates : list Z) (t : string) (c : list fl) (w : Q)
  (two_returns : (2 <= List.length (finite_part c))%nat) :
  exists v s,
    Risk.var_p [Fin w] (mkFrame dates [(t, c)]) = Risk.Ok (Fin v)
    /\ sample_variance c = Fin s
    /\ v == w * w * s.
Proof.
  assert (Hcols : Forall (fun col => map is_finite col = map is_finite c)
                    (map snd (columns (mkFrame dates [(t, c)]))))
    by (repeat constructor).
  assert (Htwo : (2 <= List.length
                         (filter (fun b => b) (map is_finite c)))%nat)
    by (rewrite <- finite_part_length; exact two_returns).
  pose proof (var_p_observed (mkFrame dates [(t, c)]) [w] (map is_finite c)
                Hcols Htwo eq_refl) as Hvar.
  pose proof (cov_entry_diag c) as Hdiag.
  rewrite (cov_entry_same_rows c c eq_refl two_returns) in Hdiag.
  unfold sample_variance in *.
  destruct (List.length (finite_part c) <? 2)%nat eqn:E;
    [apply Nat.ltb_lt in E; lia|].
  cbn [map columns snd] in Hvar.
  eexists. eexists. split; [exact Hvar|]. split; [reflexivity|].
  simpl in Hdiag. unfold dotL. simpl. rewrite Hdiag. ring.
Qed.

Lemma single_asset_variance_witness :
  exists v s,
    Risk.var_p [Fin 100]
      (mkFrame [20240102; 20240103; 20240104]%Z
         [("AAA"%string, [NaN; Fin (1 # 10); Fin (3 # 10)])])
    = Risk.Ok (Fin v)
    /\ sample_variance [NaN; Fin (1 # 10); Fin (3 # 10)] = Fin s
    /\ v == 100 * 100 * s.
Proof.
  apply (single_asset_variance [20240102; 20240103; 20240104]%Z "AAA"
           [NaN; Fin (1 # 10); Fin (3 # 10)] 100).
  simpl. lia.
Defined.

(** ** An asset with a short history *)

Lemma pct_change_head (pad : bool) (s : list fl) :
  s <> [] -> exists rest, pct_change pad s = NaN :: rest.
Proof.
  intro Hne. destruct s as [|x s]; [contradiction|].
  unfold pct_change. destruct pad.
  - unfold ffill. cbn [ffill_from shift combine map fst snd].
    destruct (if is_nan x then NaN else x); eexists; reflexivity.
  - cbn [shift combine map fst snd]. destruct x; eexists; reflexivity.
Qed.

Lemma filter_length_le {A : Type} (f : A -> bool) (l : list A) :
  (List.length (filter f l) <= List.length l)%nat.
Proof.
  induction l as [|x l IH]; simpl; [lia|].
  destruct (f x); simpl; lia.
Qed.

Lemma few_returns (pad : bool) (s : list fl) :
  (List.length s <= 2)%nat ->
  (List.length (filter notna (pct_change pad s)) <= 1)%nat.
Proof.
  intro Hlen. destruct s as [|x s].
  - destruct pad; simpl; lia.
  - destruct (pct_change_head pad (x :: s)) as [rest Hrest]; [discriminate|].
    pose proof (pct_change_length pad (x :: s)) as Hl.
    rewrite Hrest in *. simpl in Hl, Hlen.
    cbn [filter notna is_nan negb].
    pose proof (filter_length_le notna rest). lia.
Qed.

Lemma nanstd_few (sqrtQ : Q -> Q) (l : list fl) :
  (List.length (filter notna l) <= 1)%nat -> nanstd sqrtQ l = NaN.
Proof.
  intro H. unfold nanstd, nanvar.
  apply Nat.leb_le in H. rewrite H. reflexivity.
Qed.

(** X19.  An asset whose price column has two rows at most has one return
    at most, so its annualized risk and its Sharpe ratio are both NaN. *)
Theorem short_history_has_nan_risk
  (sqrtQ : Q -> Q) (pad : bool) (df_prices : DataFrame)
  (t : string) (c : list fl)
  (column : In (t, c) (columns df_prices))
  (short : (List.length c <= 2)%nat) :
  In (t, NaN) (Risk.individual_risks sqrtQ (Risk.returns_df pad df_prices))
  /\ In (t, NaN)
        (AnalysisPage.sharp_individual sqrtQ
           (Risk.returns_df pad df_prices)).
Proof.
  assert (Hstd : nanstd sqrtQ (pct_change pad (bfill c)) = NaN).
  { apply nanstd_few, few_returns. rewrite bfill_length. exact short. }
  unfold Risk.individual_risks, AnalysisPage.sharp_individual,
    Risk.returns_df, Risk.df_prices_filled, map_columns.
  cbn [columns]. rewrite !map_map. cbn [fst snd].
  split; apply in_map_iff; exists (t, c); cbn [fst snd];
    rewrite Hstd; (split; [|exact column]).
  - reflexivity.
  - destruct (nanmean (pct_change pad (bfill c))); reflexivity.
Qed.

Lemma short_history_has_nan_risk_witness :
  In ("AAA"%string, NaN)
     (Risk.individual_risks sqrt_up (Risk.returns_df true two_day_prices)).
Proof.
  apply (short_history_has_nan_risk sqrt_up true two_day_prices "AAA"
           [Fin (10 # 1); Fin (11 # 1)]).
  - left. reflexivity.
  - simpl. lia.
Defined.

(** ** The reconstructed value, in general *)

Lemma fadd_feq (a a' b b' : fl) :
  feq a a' -> feq b b' -> feq (fadd a b) (fadd a' b').
Proof.
  destruct a, a', b, b'; simpl; try tauto.
  intros H1 H2. rewrite H1, H2. reflexivity.
Qed.

Lemma notna_feq (a a' : fl) : feq a a' -> notna a = notna a'.
Proof. destruct a, a'; simpl; tauto. Qed.

Lemma nansum_feq (l l' : list fl) :
  Forall2 feq l l' -> feq (nansum l) (nansum l').
Proof.
  unfold nansum. intro H.
  assert (Hacc : forall a a', feq a a' ->
            feq (fold_left fadd (filter notna l) a)
                (fold_left fadd (filter notna l') a')).
  { induction H as [|x y l l' Hxy _ IH]; intros a a' Ha; [exact Ha|].
    cbn [filter]. rewrite (notna_feq x y Hxy).
    destruct (notna y); [|apply IH; exact Ha].
    cbn [fold_left]. apply IH. apply fadd_feq; assumption. }
  apply Hacc. reflexivity.
Qed.

Lemma Forall2_map_same {A B : Type} (R : B -> B -> Prop) (f g : A -> B)
  (l : list A) :
  (forall x, R (f x) (g x)) -> Forall2 R (map f l) (map g l).
Proof.
  intro H. induction l as [|x l IH]; simpl; constructor; auto.
Qed.

Lemma fmul_one (x : fl) : feq x (fmul x (Fin 1)).
Proof.
  destruct x; simpl; try exact I. ring.
Qed.

Lemma cell_scaled (c : list fl) (sh : Q) (i : nat) :
  cell (map (fun price => fmul price (Fin sh)) c) i = fmul (cell c i) (Fin sh).
Proof.
  unfold cell.
  change NaN with ((fun price => fmul price (Fin sh)) NaN) at 1.
  apply map_nth.
Qed.

Lemma scale_by_absent (shares : list (string * Q)) (t : string) (c : list fl) :
  ~ In t (map fst shares) -> scale_by shares (t, c) = (t, c).
Proof.
  unfold scale_by. induction shares as [|row shares IH]; intro H;
    [reflexivity|].
  cbn [fold_left fst snd]. cbn [map In] in H.
  destruct (String.eqb t (fst row)) eqn:E.
  - apply String.eqb_eq in E. exfalso. apply H. left. symmetry. exact E.
  - apply IH. intro Hin. apply H. right. exact Hin.
Qed.

(** With distinct tickers, a column is multiplied by the shares of its
    ticker, and left as it is when no position has the ticker. *)
Lemma scale_by_shares (shares : list (string * Q)) (t : string) (c : list fl) :
  NoDup (map fst shares) ->
  scale_by shares (t, c)
  = (t, match find (fun row => String.eqb (fst row) t) shares with
        | Some row => map (fun price => fmul price (Fin (snd row))) c
        | None => c
        end).
Proof.
  induction shares as [|row shares IH]; intro Hnd; [reflexivity|].
  inversion Hnd as [|? ? Hnot Hnd']; subst.
  cbn [find]. rewrite (String.eqb_sym (fst row) t).
  unfold scale_by. cbn [fold_left fst snd].
  destruct (String.eqb t (fst row)) eqn:E.
  - apply String.eqb_eq in E. subst t.
    apply (scale_by_absent shares). exact Hnot.
  - apply IH. exact Hnd'.
Qed.

(** X20.  With distinct tickers, the ['Total Value'] of the Analysis page
    at each date is the sum of price times shares over every column but the
    first: it is the portfolio value of the table without its first
    ticker. *)
Theorem total_value_is_value_without_first_ticker
  (shares : list (string * Q)) (prices_df : DataFrame)
  (distinct : NoDup (map fst shares)) :
  Forall2 feq
    (Analysis.total_value shares prices_df)
    (Analysis.portfolio_value shares
       (mkFrame (index prices_df) (tl (columns prices_df)))).
Proof.
  unfold Analysis.total_value, Analysis.portfolio_value,
    Analysis.iloc_columns_from_1, row_sums.
  rewrite multiply_by_shares_columns. cbn [index columns].
  apply Forall2_map_same. intro i. apply nansum_feq.
  destruct (columns prices_df) as [|first others]; [constructor|].
  cbn [map tl]. rewrite !map_map.
  apply Forall2_map_same. intros [t c].
  rewrite (scale_by_shares shares t c distinct). cbn [fst snd].
  unfold Analysis.shares_of.
  destruct (find (fun row => String.eqb (fst row) t) shares) as [row|].
  - rewrite cell_scaled. reflexivity.
  - apply fmul_one.
Qed.

Lemma total_value_is_value_without_first_ticker_witness :
  Forall2 feq
    (Analysis.total_value two_shares two_prices)
    (Analysis.portfolio_value two_shares
       (mkFrame (index two_prices) (tl (columns two_prices)))).
Proof.
  apply (total_value_is_value_without_first_ticker two_shares two_prices).
  repeat constructor; simpl; intuition discriminate.
Defined.

(** ** A portfolio of one ticker *)

Lemma row_sums_no_column (n : nat) : row_sums n [] = repeat (Fin 0) n.
Proof.
  unfold row_sums. generalize 0%nat.
  induction n as [|n IH]; intro start; [reflexivity|].
  simpl. rewrite IH. reflexivity.
Qed.

Lemma last_repeat (v : fl) (n : nat) : last (repeat v (S n)) NaN = v.
Proof.
  induction n as [|n IH]; [reflexivity|].
  change (repeat v (S (S n))) with (v :: repeat v (S n)).
  change (last (v :: repeat v (S n)) NaN) with (last (repeat v (S n)) NaN).
  exact IH.
Qed.

(** X21.  For a portfolio of a single ticker the Analysis page sums no
    column at all: the total value is 0 at every date whatever the prices
    and the shares, the portfolio Sharpe ratio is NaN and, on a window that
    is not empty, so is the cumulative return. *)
Theorem single_ticker_portfolio_is_worth_nothing
  (sqrtQ : Q -> Q)
  (sqrtQ_zero : forall q, 0 <= q -> (sqrtQ q == 0 <-> q == 0))
  (pad : bool) (portfolio : Store.table)
  (dates : list Z) (t : string) (c : list fl) :
  let prices_df := mkFrame dates [(t, c)] in
  let total := Analysis.total_value (Analysis.shares_df portfolio) prices_df in
  total = repeat (Fin 0) (List.length dates)
  /\ Analysis.portfolio_sharpe sqrtQ pad portfolio prices_df = NaN
  /\ (dates <> [] -> Analysis.cum_return total = Some NaN).
Proof.
  cbv zeta.
  assert (Htotal : Analysis.total_value (Analysis.shares_df portfolio)
                     (mkFrame dates [(t, c)])
                   = repeat (Fin 0) (List.length dates)).
  { unfold Analysis.total_value, Analysis.iloc_columns_from_1.
    rewrite multiply_by_shares_columns. cbn [index columns map tl].
    apply row_sums_no_column. }
  unfold Analysis.portfolio_sharpe. rewrite Htotal.
  split; [reflexivity|]. split.
  - unfold Analysis.sharpe_ratio.
    destruct (return_column_constant pad (Fin 0) (List.length dates))
      as [qs [-> Hz]].
    apply (sharpe_of_zero_returns sqrtQ sqrtQ_zero). exact Hz.
  - intro Hne. destruct dates as [|d dates]; [contradiction|].
    cbn [List.length]. unfold Analysis.cum_return.
    change (repeat (Fin 0) (S (List.length dates)))
      with (Fin 0 :: repeat (Fin 0) (List.length dates)) at 1.
    cbv iota. rewrite last_repeat. reflexivity.
Qed.

Lemma single_ticker_portfolio_is_worth_nothing_witness :
  Analysis.portfolio_sharpe sqrt_up true sample_table two_day_prices = NaN.
Proof.
  apply (single_ticker_portfolio_is_worth_nothing sqrt_up sqrt_up_zero true
           sample_table [20240102; 20240103]%Z "AAA"
           [Fin (10 # 1); Fin (11 # 1)]).
Defined.

(** ** Back-fill, then the forward fill of [pct_change] *)

Lemma ffill_from_notna (last : fl) (l : list fl) :
  notna last = true ->
  Forall (fun x => notna x = true) (ffill_from last l).
Proof.
  revert last. induction l as [|x l IH]; intros last Hlast; simpl;
    constructor.
  - destruct (is_nan x) eqn:E; [exact Hlast|].
    unfold notna. rewrite E. reflexivity.
  - apply IH. destruct (is_nan x) eqn:E; [exact Hlast|].
    unfold notna. rewrite E. reflexivity.
Qed.

(** X22.  Under the forward fill that [pct_change] applies by default up
    to pandas 2, the returns of a back-filled column that has a price at
    all are computed on a column without any missing cell: the trailing
    cells the back-fill leaves missing take the last price. *)
Theorem filled_both_ways_has_no_gap (c : list fl)
  (some_price : is_nan (first_valid c) = false) :
  Forall (fun x => notna x = true) (ffill (bfill c))
  /\ pct_change true (bfill c) = pct_change false (ffill (bfill c)).
Proof.
  split; [|reflexivity].
  destruct c as [|x c]; [constructor|].
  assert (Hhd : notna (hd NaN (bfill (x :: c))) = true).
  { rewrite bfill_hd. unfold notna. rewrite some_price. reflexivity. }
  destruct (bfill (x :: c)) as [|y filled] eqn:E; [constructor|].
  simpl in Hhd. unfold ffill. cbn [ffill_from].
  assert (Hy : is_nan y = false)
    by (unfold notna in Hhd; apply negb_true_iff; exact Hhd).
  rewrite Hy. constructor; [exact Hhd|].
  apply ffill_from_notna. exact Hhd.
Qed.

Lemma filled_both_ways_has_no_gap_witness :
  Forall (fun x => notna x = true)
         (ffill (bfill [NaN; Fin (10 # 1); NaN; Fin (12 # 1); NaN; NaN])).
Proof.
  apply (filled_both_ways_has_no_gap
           [NaN; Fin (10 # 1); NaN; Fin (12 # 1); NaN; NaN]).
  reflexivity.
Defined.

Lemma payout_colours_by_threshold_witness :
  (DividendChart.alarm (DividendChart.payout_color (40 # 1))
   <= DividendChart.alarm (DividendChart.payout_color (80 # 1)))%nat.
Proof.
  apply (payout_colours_by_threshold (40 # 1) (80 # 1)).
  unfold Qle. simpl. lia.
Defined.
